(** * ExaChem SCF helpers: canonical orthogonalisation and task gathering

    A shallow embedding of [exachem/scf/scf_common.cpp]:

    - [gensqrtinv] and [gensqrtinv_atscf]: eigenvalue filter, broadcast of
      the number of dropped directions, and assembly of the transform
      [X = U . diag(1/sqrt(eps))] (dense build, i.e. the branch compiled
      without [USE_SCALAPACK]);
    - [gather_task_vectors]: variable-length gather of three [int] vectors
      on rank 0;
    - [sort_indexes]: the indices of a vector in the order of its values.

    C++ [double] is IEEE binary64 and is modelled by Rocq's primitive
    [float]; C++ [int] is modelled by [Z] with the 32-bit wrap-around
    written out; [std::vector] and Eigen buffers are lists read with
    stdpp's lookup.  The program is SPMD: every definition that depends on
    the calling process takes its rank, and a collective operation is
    modelled by what it leaves in the buffers of that rank and by whether
    it completes there. *)

From Stdlib Require Import ZArith Lia Floats.
From stdpp Require Import base list numbers sorting.

Set Warnings "-inexact-float".

(** * Part I: the model *)

(** ** C++ [double] *)

Module Double.

#[local] Open Scope float_scope.

(** C++ [x >= y] on doubles. *)
Definition ge (x y : float) : bool := y <=? x.

(** [1.0 / std::sqrt(c)] *)
Definition inv_sqrt (c : float) : float := 1 / sqrt c.

(** Comparison of two finite values of the same sign by exponent, then
    mantissa: the inner match of [SFcompare]. *)
Definition cmp_em (e1 : Z) (m1 : positive) (e2 : Z) (m2 : positive) : comparison :=
  match (e1 ?= e2)%Z with
  | Lt => Lt
  | Gt => Gt
  | Eq => Pos.compare_cont Eq m1 m2
  end.

End Double.

(** ** The eigenvalue filter, the broadcast and the transform *)

Module Scf.

Import Double.

#[export] Instance float_inhabited : Inhabited float := populate 0%float.

(** [std::find_if(v.begin(), v.end(), p)].  An iterator is its distance
    from [v.begin()]; [length v] is [v.end()]. *)
Fixpoint find_if {A} (p : A → bool) (v : list A) : nat :=
  match v with
  | [] => 0
  | x :: v' => if p x then 0 else S (find_if p v')
  end.

(** What the rank-0 block writes to [std::cout] when [n_illcond > 0].  A
    printed value is [None] when it was read outside the vector. *)
Inductive line :=
| Found_linear_dependencies (n : Z)
| First_eigen_value_above_tol (v : option float)
| Deemed_linearly_dependent (n : Z)
| Dropped_eigenvalue (i : Z) (v : option float).

(** The scalar locals of [gensqrtinv] / [gensqrtinv_atscf] on one rank.
    [result_condition_number = None] records that the quotient was computed
    from a read outside [eps] (its value is then indeterminate);
    [first_above_thresh = None] is the iterator before its assignment. *)
Record locals := {
  n_cond : Z;
  n_illcond : Z;
  condition_number : float;
  result_condition_number : option float;
  first_above_thresh : option nat;
  cout : list line;
}.

(** [int64_t n_cond{}, n_illcond{}; double condition_number{},
    result_condition_number{}; std::vector<T>::iterator first_above_thresh;] *)
Definition declared : locals :=
  {| n_cond := 0; n_illcond := 0;
     condition_number := 0%float;
     result_condition_number := Some 0%float;
     first_above_thresh := None;
     cout := [] |}.

(** The body of the second [if(world_rank == 0)] block: the filter proper. *)
Definition lindep_filter (N : nat) (eps : list float) (threshold : float)
    (st : locals) : locals :=
  let it := find_if (λ x, ge x threshold) eps in
  let rcn :=
    match list.last eps, eps !! it with
    | Some back, Some first => Some (back / first)%float
    | _, _ => None
    end in
  let n_ill := Z.of_nat it in
  {| first_above_thresh := Some it;
     result_condition_number := rcn;
     n_illcond := n_ill;
     n_cond := Z.of_nat N - n_ill;
     condition_number := condition_number st;
     cout :=
       if (0 <? n_ill)%Z then
         [Found_linear_dependencies n_ill;
          First_eigen_value_above_tol (eps !! it);
          Deemed_linearly_dependent n_ill]
         ++ ((λ i, Dropped_eigenvalue (Z.of_nat i + 1) (eps !! i))
               <$> seq 0 (Z.to_nat n_ill))
       else [] |}.

(** No value used by the filter or printed by it came from outside [eps]. *)
Definition line_in_range (l : line) : bool :=
  match l with
  | First_eigen_value_above_tol None | Dropped_eigenvalue _ None => false
  | _ => true
  end.

Definition reads_in_range (st : locals) : bool :=
  bool_decide (is_Some (result_condition_number st)) && forallb line_in_range (cout st).

(** Ascending order of the eigenvalues, as [syevd] returns them. *)
Definition ascending (eps : list float) : Prop :=
  ∀ i x y, eps !! i = Some x → eps !! S i = Some y → (x <=? y)%float = true.

Fixpoint ascendingb (eps : list float) : bool :=
  match eps with
  | x :: (y :: _) as eps' => (x <=? y)%float && ascendingb eps'
  | _ => true
  end.

(** Eigen's [Matrix] of the SCF code: dense, row-major (the source relies
    on it: "X is row major..."). *)
Record Matrix := { rows : nat; cols : nat; data : list float }.

Definition coeff (M : Matrix) (i j : nat) : float := data M !!! (i * cols M + j).

(** A matrix given by its coefficients. *)
Definition tabulate (r c : nat) (f : nat → nat → float) : Matrix :=
  {| rows := r; cols := c;
     data := (λ k, f (k / c) (k mod c)) <$> seq 0 (r * c) |}.

(** [M.block(i, j, p, q)] *)
Definition block (M : Matrix) (i j p q : nat) : Matrix :=
  tabulate p q (λ a b, coeff M (i + a) (j + b)).

(** [M.transpose()] *)
Definition transpose (M : Matrix) : Matrix :=
  tabulate (cols M) (rows M) (λ a b, coeff M b a).

(** [blas::scal(n, alpha, x + off, incx)]: [x[off + k*incx] = alpha * x[off + k*incx]]
    for [k < n]. *)
Definition scal (n : nat) (alpha : float) (x : list float) (off incx : nat) : list float :=
  foldl (λ x k, alter (λ v, alpha * v)%float (off + k * incx) x) x (seq 0 n).

(** [M] with its buffer replaced (writes through [M.data()]). *)
Definition with_data (M : Matrix) (d : list float) : Matrix :=
  {| rows := rows M; cols := cols M; data := d |}.

(** The iterator [first_above_thresh] where the code uses it (rank 0, after
    the filter has assigned it). *)
Definition assigned (st : locals) : nat := default 0 (first_above_thresh st).

Section Entry_points.

(** [lapack::syevd(Job::Vec, Uplo::Lower, N, V.data(), N, eps.data())], an
    external routine: from the order and the buffer it returns the buffer
    overwritten with the eigenvectors, and the eigenvalues.  LAPACK is
    column-major and [Matrix] is row-major, so row [k] of [V] is the
    eigenvector of the [k]-th eigenvalue. *)
Variable syevd : nat → list float → list float * list float.

(** The first [if(world_rank == 0)] block: [V] and [eps] of this rank.
    [V.resize(N, N)] and [std::vector<T> eps(N)] fix the sizes of the two
    buffers the routine writes into.  Elsewhere [V] stays the empty matrix
    and [eps] the [N] zeros of its declaration. *)
Definition decompose (world_rank N : nat) (S1 : list float) : Matrix * list float :=
  if decide (world_rank = 0) then
    ({| rows := N; cols := N; data := resize (N * N) 0%float (syevd N S1).1 |},
     resize N 0%float (syevd N S1).2)
  else
    ({| rows := 0; cols := 0; data := [] |}, replicate N 0%float).

(** The locals of a rank when it reaches the broadcast. *)
Definition before_broadcast (world_rank N : nat) (S1 : list float)
    (threshold : float) : locals :=
  if decide (world_rank = 0) then
    lindep_filter N (decompose world_rank N S1).2 threshold declared
  else declared.

(** [if(world_size > 1) ec.pg().broadcast(&n_illcond, 0); n_cond = N - n_illcond;]
    The broadcast leaves rank 0's value in the buffer of every rank. *)
Definition after_broadcast (world_size world_rank N : nat) (S1 : list float)
    (threshold : float) : locals :=
  let st := before_broadcast world_rank N S1 threshold in
  let n_ill :=
    if decide (1 < world_size)
    then n_illcond (before_broadcast 0 N S1 threshold)
    else n_illcond st in
  {| n_illcond := n_ill;
     n_cond := Z.of_nat N - n_ill;
     condition_number := condition_number st;
     result_condition_number := result_condition_number st;
     first_above_thresh := first_above_thresh st;
     cout := cout st |}.

(** [Matrix V_cond = V.block(n_illcond, 0, N - n_illcond, N); X = V_cond.transpose();] *)
Definition canonical_X (V : Matrix) (N : nat) (st : locals) : Matrix :=
  let V_cond :=
    block V (Z.to_nat (n_illcond st)) 0 (Z.to_nat (Z.of_nat N - n_illcond st)) N in
  transpose V_cond.

(** *** [gensqrtinv] *)

Record gensqrtinv_result := {
  returned : Z * float * option float;  (** the returned tuple *)
  X_alpha : Matrix;                     (** [ttensors.X_alpha], N x nbf *)
  n_lindep : Z;                         (** [sys_data.n_lindep] *)
  nbf : Z;                              (** [sys_data.nbf] *)
  printed : list line;
}.

(** [std::vector<T> epso(first_above_thresh, eps.end())] mapped by
    [1.0 / std::sqrt(c)] and stored in [eps_tamm] (rank 0). *)
Definition eps_tamm (eps : list float) (st : locals) : list float :=
  inv_sqrt <$> drop (assigned st) eps.

(** [X_comp(mu, mu_o) = X_tmp(mu, mu_o) * eps_tamm(mu_o)] over the tensors
    that rank 0 filled; [X_comp] is [ttensors.X_alpha]. *)
Definition gensqrtinv (world_size world_rank N : nat) (S1 : list float)
    (threshold : float) : gensqrtinv_result :=
  let st := after_broadcast world_size world_rank N S1 threshold in
  let root := after_broadcast world_size 0 N S1 threshold in
  let '(V, eps) := decompose 0 N S1 in
  let X_tmp := canonical_X V N root in
  let scale := eps_tamm eps root in
  {| returned := (n_cond st, condition_number st, result_condition_number st);
     X_alpha :=
       tabulate N (Z.to_nat (n_cond st))
         (λ mu mu_o, coeff X_tmp mu mu_o * scale !!! mu_o)%float;
     n_lindep := n_illcond st;
     nbf := n_cond st;
     printed := cout st |}.

(** *** [gensqrtinv_atscf] *)

Record gensqrtinv_atscf_result := {
  returned_atscf : Matrix * Z * float * option float;
  printed_atscf : list line;
}.

(** The loop "Form canonical X/Xinv" of rank 0: column [i] of the row-major
    [X] is scaled in place by [1. / srt] with stride [n_cond]. *)
Definition scale_columns (N : nat) (eps : list float) (st : locals) (X : Matrix) : Matrix :=
  foldl (λ X i,
           let srt := sqrt (eps !!! (assigned st + i)) in
           with_data X (scal N (1 / srt) (data X) i (Z.to_nat (n_cond st))))
        X (seq 0 (Z.to_nat (n_cond st))).

(** Rank 0 copies its [X] into the tensor [x_tamm] (N x n_cond); after the
    barrier every rank reads [X] back from it. *)
Definition gensqrtinv_atscf (world_size world_rank N : nat) (S1 : list float)
    (threshold : float) : gensqrtinv_atscf_result :=
  let st := after_broadcast world_size world_rank N S1 threshold in
  let root := after_broadcast world_size 0 N S1 threshold in
  let '(V, eps) := decompose 0 N S1 in
  let X := scale_columns N eps root (canonical_X V N root) in
  let x_tamm := tabulate N (Z.to_nat (n_cond st)) (λ mu mu_o, coeff X mu mu_o) in
  {| returned_atscf :=
       (x_tamm, n_cond st, condition_number st, result_condition_number st);
     printed_atscf := cout st |}.

End Entry_points.

(** The transform of the spec: an [N x c] matrix whose column [i] is row
    [k + i] of [V] (the eigenvector of the [(k + i)]-th eigenvalue) with
    every component multiplied by [1 / sqrt (eps[k + i])]. *)
Definition canonical_transform (V : Matrix) (eps : list float) (N k c : nat)
    (X : Matrix) : Prop :=
  rows X = N ∧ cols X = c ∧ length (data X) = N * c ∧
  ∀ mu i, mu < N → i < c →
    ∃ u e, data V !! ((k + i) * N + mu) = Some u ∧ eps !! (k + i) = Some e ∧
           data X !! (mu * c + i) = Some (u * (1 / sqrt e))%float.

(** A stand-in for the external routine that returns given buffers, to run
    the entry points on concrete inputs. *)
Definition syevd_returning (V eps : list float)
    : nat → list float → list float * list float :=
  λ _ _, (V, eps).

Definition example_eps : list float := [1e-12; 0.25; 1; 4]%float.

Definition example_V : list float :=
  [1; 0; 0; 0;
   0; 0; 1; 0;
   0; -1; 0; 0;
   0; 0; 0; 1]%float.

End Scf.

(** ** C++ [int] *)

Module Int.

Definition INT_MAX : Z := 2147483647.

(** Conversion of an integer value to [int]: reduction modulo [2^32] into
    [-2^31 .. 2^31 - 1]. *)
Definition wrap (z : Z) : Z := (z + 2147483648) `mod` 4294967296 - 2147483648.

(** [a + b] on [int], as two's complement arithmetic computes it. *)
Definition add (a b : Z) : Z := wrap (a + b).

(** [(int) v.size()] *)
Definition of_size (n : nat) : Z := wrap (Z.of_nat n).

End Int.

(** ** [gather_task_vectors] *)

Module Gather.

(** The three vectors a rank passes to the call. *)
Record task_vectors := {
  s1vec : list Z;
  s2vec : list Z;
  ntask_vec : list Z;
}.

(** The process group seen from outside: what each rank passes, by rank. *)
Definition group := list task_vectors.

Inductive failure :=
| Expects_violated   (** an [EXPECTS] check failed *)
| Length_error       (** [resize] beyond [max_size()] *)
| Out_of_range       (** a vector indexed outside its bounds *)
| Gatherv_invalid.   (** a negative count or a segment outside the receive buffer *)

Inductive outcome (A : Type) :=
| Ok (a : A)
| Fatal (e : failure).
Arguments Ok {A} a.
Arguments Fatal {A} e.

#[export] Instance outcome_ret : MRet outcome := λ A a, Ok a.
#[export] Instance outcome_bind : MBind outcome := λ A B f m,
  match m with
  | Ok a => f a
  | Fatal e => Fatal e
  end.

(** Modelled from the spec: the [EXPECTS] macro, declared outside [src/]:
    a checked postcondition whose violation is fatal. *)
Definition EXPECTS (cond : bool) : outcome () :=
  if cond then Ok () else Fatal Expects_violated.

(** [ec.pg().gather(&x, rbuf, 0)]: on rank 0 the receive buffer holds the
    value of every rank, in rank order; elsewhere it is left as it was. *)
Definition pg_gather (xs : list Z) (rank : nat) (rbuf : list Z) : list Z :=
  if decide (rank = 0) then xs else rbuf.

(** One assignment of the displacement loop:
    [disps[i] = (i > 0) ? (disps[i - 1] + count[i - 1]) : 0]. *)
Definition disps_body (count disps : list Z) (i : nat) : list Z :=
  <[i := if decide (0 < i)%nat
         then Int.add (disps !!! (i - 1)%nat) (count !!! (i - 1)%nat)
         else 0%Z]> disps.

(** The loop [for(int i = 0; i < nranks; i++)] over the three vectors,
    each declared with [nranks] zeros. *)
Definition displacements (nranks : nat) (s1_count s2_count nt_count : list Z)
    : list Z * list Z * list Z :=
  foldl (λ d i, (disps_body s1_count d.1.1 i,
                 disps_body s2_count d.1.2 i,
                 disps_body nt_count d.2 i))
        (replicate nranks 0%Z, replicate nranks 0%Z, replicate nranks 0%Z)
        (seq 0 nranks).

(** [v[i]] for an [int] index. *)
Definition index (v : list Z) (i : Z) : outcome Z :=
  if decide (0 ≤ i)%Z then
    match v !! Z.to_nat i with
    | Some x => Ok x
    | None => Fatal Out_of_range
    end
  else Fatal Out_of_range.

(** [v.resize(n)] on an empty [std::vector<int>] with [n] an [int]: a
    negative [n] converts to a [size_t] above [max_size()]. *)
Definition resize (n : Z) : outcome (list Z) :=
  if decide (n < 0)%Z then Fatal Length_error else Ok (replicate (Z.to_nat n) 0%Z).

(** What a rank sends in [gatherv(v.data(), vec_size, ...)]: its first
    [vec_size] elements. *)
Definition message (v : list Z) : list Z :=
  take (Z.to_nat (Int.of_size (length v))) v.

(** [seg] written into [rbuf] from offset [d]. *)
Definition place (rbuf : list Z) (d : nat) (seg : list Z) : list Z :=
  take d rbuf ++ seg ++ drop (d + length seg)%nat rbuf.

(** The receiving side of [MPI_Gatherv]: the data of rank [i] is stored in
    [count[i]] cells from offset [disps[i]] of the receive buffer. *)
Fixpoint gatherv_root (rbuf : list Z) (sent : list (list Z)) (count disps : list Z)
    : outcome (list Z) :=
  match sent, count, disps with
  | [], _, _ => Ok rbuf
  | m :: sent', c :: count', d :: disps' =>
      if decide (0 ≤ c ∧ 0 ≤ d ∧ d + c ≤ Z.of_nat (length rbuf))%Z then
        gatherv_root (place rbuf (Z.to_nat d) (take (Z.to_nat c) m)) sent' count' disps'
      else Fatal Gatherv_invalid
  | _, _, _ => Fatal Out_of_range
  end.

(** Modelled from the spec:
    [ec.pg().gatherv(v.data(), vec_size, rbuf, count, disps, 0)], a blocking
    collective in which a failure is fatal to the whole group.  Rank 0
    receives.  Another rank sends [vec_size] elements, which cannot be a
    negative number, and leaves the call when rank 0 has received:
    [at_root] is what this call does on rank 0, a failure if rank 0 failed
    in it or before reaching it. *)
Definition pg_gatherv (sent : list (list Z)) (vec_size : Z) (rank : nat)
    (rbuf count disps : list Z) (at_root : outcome (list Z)) : outcome (list Z) :=
  if decide (rank = 0) then gatherv_root rbuf sent count disps
  else if decide (vec_size < 0)%Z then Fatal Gatherv_invalid
  else at_root ≫= λ _, Ok rbuf.

(** The block [if(rank == 0) { s1_all.resize(...); ... }] as rank 0 runs
    it. *)
Definition allocate (nranks : nat) (s1_count s2_count nt_count d_s1 d_s2 d_nt : list Z)
    : outcome (list Z * list Z * list Z) :=
  let last_rank := (Z.of_nat nranks - 1)%Z in
  d1 ← index d_s1 last_rank; c1 ← index s1_count last_rank;
  a1 ← resize (Int.add d1 c1);
  d2 ← index d_s2 last_rank; c2 ← index s2_count last_rank;
  a2 ← resize (Int.add d2 c2);
  d3 ← index d_nt last_rank; c3 ← index nt_count last_rank;
  a3 ← resize (Int.add d3 c3);
  mret (a1, a2, a3).

(** What the three [gatherv] calls do on rank 0, in the order of the
    calls: rank 0 holds the sizes of all ranks, allocates, and reaches a
    call only when the calls before it have completed. *)
Definition root_receives (g : group)
    : outcome (list Z) * outcome (list Z) * outcome (list Z) :=
  let nranks := length g in
  let s1_count := Int.of_size ∘ length ∘ s1vec <$> g in
  let s2_count := Int.of_size ∘ length ∘ s2vec <$> g in
  let nt_count := Int.of_size ∘ length ∘ ntask_vec <$> g in
  let '(d_s1, d_s2, d_nt) := displacements nranks s1_count s2_count nt_count in
  let bufs := allocate nranks s1_count s2_count nt_count d_s1 d_s2 d_nt in
  let r1 := bufs ≫= λ b, gatherv_root b.1.1 (message ∘ s1vec <$> g) s1_count d_s1 in
  let r2 := r1 ≫= λ _, bufs ≫= λ b,
            gatherv_root b.1.2 (message ∘ s2vec <$> g) s2_count d_s2 in
  let r3 := r2 ≫= λ _, bufs ≫= λ b,
            gatherv_root b.2 (message ∘ ntask_vec <$> g) nt_count d_nt in
  (r1, r2, r3).

(** The vectors a rank passes; a rank outside the group runs nothing. *)
Definition own (g : group) (rank : nat) : task_vectors :=
  default {| s1vec := []; s2vec := []; ntask_vec := [] |} (g !! rank).

(** The vectors of a rank when it reaches the [EXPECTS] checks. *)
Record gathered := {
  disps_s1 : list Z;
  disps_s2 : list Z;
  disps_nt : list Z;
  s1_all : list Z;
  s2_all : list Z;
  ntasks_all : list Z;
}.

(** The body of [gather_task_vectors] up to the three [gatherv] calls. *)
Definition gather_phase (g : group) (rank : nat) : outcome gathered :=
  let nranks := length g in
  let s1vec_size := Int.of_size (length (s1vec (own g rank))) in
  let s2vec_size := Int.of_size (length (s2vec (own g rank))) in
  let ntvec_size := Int.of_size (length (ntask_vec (own g rank))) in
  let s1_count := pg_gather (Int.of_size ∘ length ∘ s1vec <$> g) rank (replicate nranks 0%Z) in
  let s2_count := pg_gather (Int.of_size ∘ length ∘ s2vec <$> g) rank (replicate nranks 0%Z) in
  let nt_count := pg_gather (Int.of_size ∘ length ∘ ntask_vec <$> g) rank (replicate nranks 0%Z) in
  let '(d_s1, d_s2, d_nt) := displacements nranks s1_count s2_count nt_count in
  '(a1, a2, a3) ←
    (if decide (rank = 0)
     then allocate nranks s1_count s2_count nt_count d_s1 d_s2 d_nt
     else mret ([], [], []));
  let at_root := root_receives g in
  r1 ← pg_gatherv (message ∘ s1vec <$> g) s1vec_size rank a1 s1_count d_s1 at_root.1.1;
  r2 ← pg_gatherv (message ∘ s2vec <$> g) s2vec_size rank a2 s2_count d_s2 at_root.1.2;
  r3 ← pg_gatherv (message ∘ ntask_vec <$> g) ntvec_size rank a3 nt_count d_nt at_root.2;
  mret {| disps_s1 := d_s1; disps_s2 := d_s2; disps_nt := d_nt;
          s1_all := r1; s2_all := r2; ntasks_all := r3 |}.

Definition gather_task_vectors (g : group) (rank : nat)
    : outcome (list Z * list Z * list Z) :=
  r ← gather_phase g rank;
  EXPECTS (bool_decide (length (s1_all r) = length (s2_all r)));;
  EXPECTS (bool_decide (length (s1_all r) = length (ntasks_all r)));;
  mret (s1_all r, s2_all r, ntasks_all r).

(** The displacement loop for one of the three vectors. *)
Definition displacements_of (nranks : nat) (count : list Z) : list Z :=
  foldl (disps_body count) (replicate nranks 0%Z) (seq 0 nranks).

(** The exclusive prefix sum of the spec: entry [i] is the sum of the
    lengths reported by the ranks below [i]. *)
Definition exclusive_prefix_sum (lens : list nat) (i : nat) : Z :=
  Z.of_nat (sum_list (take i lens)).

(** The lengths reported by the ranks add up to a value of [int]. *)
Definition fits (lens : list nat) : Prop := (Z.of_nat (sum_list lens) ≤ Int.INT_MAX)%Z.

(** A computation that cannot end in a failed [EXPECTS]. *)
Definition no_expects {A} (m : outcome A) : Prop := m ≠ Fatal Expects_violated.

End Gather.

(** ** [sort_indexes] *)

Module Sort.

Import Scf.

(** What [std::sort(first, last, comp)] guarantees about the range it
    leaves: the same elements, and no element that [comp] puts before an
    earlier one.  The standard fixes neither the algorithm nor the order of
    elements that [comp] does not separate. *)
Definition std_sort_post (comp : nat → nat → bool) (input out : list nat) : Prop :=
  out ≡ₚ input ∧ StronglySorted (λ x y, comp y x = false) out.

(** Conversion of an [int] to [size_t] (64 bits): reduction modulo
    [2^64]. *)
Definition to_size_t (z : Z) : nat := Z.to_nat (z `mod` 18446744073709551616).

(** [std::iota(first, last, value)] over [n] elements of type [size_t] with
    [value] an [int], the type of the literal [0] in the call:
    [*first = value; ++value;] for each element, the last one included.
    [++value] is computed in two's complement. *)
Fixpoint iota (n : nat) (value : Z) : list nat :=
  match n with
  | 0 => []
  | S n' => to_size_t value :: iota n' (Int.add value 1)
  end.

Section Sort_indexes.

(** [std::sort], a library routine. *)
Variable std_sort : (nat → nat → bool) → list nat → list nat.

(** The comparator [[&v](size_t x, size_t y) { return v[x] < v[y]; }]. *)
Definition by_value (v : list float) (x y : nat) : bool :=
  (v !!! x <? v !!! y)%float.

(** [sort_indexes<double>(v, reverse)]: [idx] has [v.size()] elements,
    filled by [iota(idx.begin(), idx.end(), 0)], sorted by the values they
    point to, then reversed on request. *)
Definition sort_indexes (v : list float) (reverse : bool) : list nat :=
  let idx := iota (length v) 0%Z in
  let idx := std_sort (by_value v) idx in
  if reverse then list.reverse idx else idx.

End Sort_indexes.

(** A sorting routine to run [sort_indexes] with: stdpp's merge sort for
    "not after". *)
Definition merge_sorter (comp : nat → nat → bool) (l : list nat) : list nat :=
  @merge_sort nat (λ x y, comp y x = false)
    (λ x y, decide_rel (=) (comp y x) false) l.

End Sort.

(** * Part II: facts *)

Import Double Scf Gather Sort.

(** ** The order of binary64 and the commutativity of its product *)

Section Double_facts.

#[local] Open Scope float_scope.

Lemma cmp_em_Lt e1 m1 e2 m2 :
  cmp_em e1 m1 e2 m2 = Lt ↔ (e1 < e2 ∨ (e1 = e2 ∧ Z.pos m1 < Z.pos m2))%Z.
Proof.
  unfold cmp_em. change (Pos.compare_cont Eq m1 m2) with (m1 ?= m2)%positive.
  destruct (Z.compare_spec e1 e2), (Pos.compare_spec m1 m2);
    split; intros; try discriminate; try reflexivity; lia.
Qed.

Lemma cmp_em_Gt e1 m1 e2 m2 :
  cmp_em e1 m1 e2 m2 = Gt ↔ (e2 < e1 ∨ (e1 = e2 ∧ Z.pos m2 < Z.pos m1))%Z.
Proof.
  unfold cmp_em. change (Pos.compare_cont Eq m1 m2) with (m1 ?= m2)%positive.
  destruct (Z.compare_spec e1 e2), (Pos.compare_spec m1 m2);
    split; intros; try discriminate; try reflexivity; lia.
Qed.

Lemma cmp_em_Eq e1 m1 e2 m2 :
  cmp_em e1 m1 e2 m2 = Eq ↔ (e1 = e2 ∧ m1 = m2).
Proof.
  unfold cmp_em. change (Pos.compare_cont Eq m1 m2) with (m1 ?= m2)%positive.
  destruct (Z.compare_spec e1 e2), (Pos.compare_spec m1 m2);
    split; intros; try discriminate; try reflexivity; try (split; congruence); lia.
Qed.

(** [SFcompare] on two finite values, with the sign cases folded. *)
Lemma SFcompare_finite s1 m1 e1 s2 m2 e2 :
  SFcompare (S754_finite s1 m1 e1) (S754_finite s2 m2 e2) =
  Some match s1, s2 with
       | true, false => Lt
       | false, true => Gt
       | false, false => cmp_em e1 m1 e2 m2
       | true, true => CompOpp (cmp_em e1 m1 e2 m2)
       end.
Proof.
  unfold cmp_em. destruct s1, s2; simpl; try reflexivity.
  destruct (e1 ?= e2)%Z; reflexivity.
Qed.

(** The three outcomes of [cmp_em] as one arithmetic fact. *)
Lemma cmp_em_cases e1 m1 e2 m2 :
  match cmp_em e1 m1 e2 m2 with
  | Lt => (e1 < e2 ∨ (e1 = e2 ∧ Z.pos m1 < Z.pos m2))%Z
  | Eq => e1 = e2 ∧ m1 = m2
  | Gt => (e2 < e1 ∨ (e1 = e2 ∧ Z.pos m2 < Z.pos m1))%Z
  end.
Proof.
  destruct (cmp_em e1 m1 e2 m2) eqn:E.
  - by apply cmp_em_Eq.
  - by apply cmp_em_Lt.
  - by apply cmp_em_Gt.
Qed.

Ltac sf_cases :=
  repeat match goal with
         | x : spec_float |- _ => destruct x as [[]|[]| |[] ? ?]
         end.

Ltac em_cases :=
  repeat match goal with
         | |- context [cmp_em ?a ?b ?c ?d] =>
             let H := fresh "H" in
             pose proof (cmp_em_cases a b c d) as H;
             destruct (cmp_em a b c d)
         | H : context [cmp_em ?a ?b ?c ?d] |- _ =>
             let H' := fresh "H" in
             pose proof (cmp_em_cases a b c d) as H';
             destruct (cmp_em a b c d)
         end.

(** Case analysis on the shapes and signs of the operands; what remains is
    linear arithmetic on exponents and mantissas. *)
Ltac by_comparison :=
  unfold SFltb, SFleb; sf_cases; rewrite ?SFcompare_finite; simpl;
  try discriminate; try reflexivity;
  em_cases; simpl; intros; try discriminate; try reflexivity;
  exfalso; lia.

Lemma SFleb_trans x y z :
  SFleb x y = true → SFleb y z = true → SFleb x z = true.
Proof.
  by_comparison.
Qed.

Lemma SFleb_refl_l x y : SFleb x y = true → SFleb x x = true.
Proof.
  by_comparison.
Qed.

Lemma SFleb_refl_r x y : SFleb x y = true → SFleb y y = true.
Proof.
  by_comparison.
Qed.

Lemma SFltb_not_leb x y : SFltb x y = true → SFleb y x = false.
Proof.
  by_comparison.
Qed.

Lemma SFleb_total x y :
  SFleb x x = true → SFleb y y = true → SFleb y x = false → SFltb x y = true.
Proof.
  by_comparison.
Qed.

Lemma double_leb_trans x y z : (x <=? y) = true → (y <=? z) = true → (x <=? z) = true.
Proof. rewrite !leb_spec. apply SFleb_trans. Qed.

Lemma double_leb_refl_l x y : (x <=? y) = true → (x <=? x) = true.
Proof. rewrite !leb_spec. apply SFleb_refl_l. Qed.

Lemma double_leb_refl_r x y : (x <=? y) = true → (y <=? y) = true.
Proof. rewrite !leb_spec. apply SFleb_refl_r. Qed.

Lemma double_ltb_not_leb x y : (x <? y) = true → (y <=? x) = false.
Proof. rewrite ltb_spec, leb_spec. apply SFltb_not_leb. Qed.

Lemma double_ltb_refl_l x y : (x <? y) = true → (x <=? x) = true.
Proof.
  rewrite ltb_spec, leb_spec. unfold SFltb, SFleb.
  intros H. destruct (SFcompare (Prim2SF x) (Prim2SF y)) as [[]|] eqn:E; try discriminate.
  apply (SFleb_refl_l _ (Prim2SF y)). unfold SFleb. by rewrite E.
Qed.

Lemma double_not_leb_ltb x y :
  (x <=? x) = true → (y <=? y) = true → (y <=? x) = false → (x <? y) = true.
Proof. rewrite ltb_spec, !leb_spec. apply SFleb_total. Qed.

(** Multiplication of doubles is commutative. *)
Lemma SFmul_comm x y : SF64mul x y = SF64mul y x.
Proof.
  unfold SF64mul, SFmul.
  destruct x as [sx|sx| |sx mx ex], y as [sy|sy| |sy my ey];
    try reflexivity; rewrite ?(xorb_comm sx sy); try reflexivity.
  by rewrite (Pos.mul_comm mx my), (Z.add_comm ex ey).
Qed.

Lemma double_mul_comm x y : x * y = y * x.
Proof. apply Prim2SF_inj. rewrite !mul_spec. apply SFmul_comm. Qed.

Lemma SFltb_false_leb x y :
  SFleb x x = true → SFleb y y = true → SFltb y x = false → SFleb x y = true.
Proof. by_comparison. Qed.

Lemma SFltb_leb x y : SFltb x y = true → SFleb x y = true.
Proof. by_comparison. Qed.

Lemma double_ltb_leb x y : (x <? y) = true → (x <=? y) = true.
Proof. rewrite ltb_spec, leb_spec. apply SFltb_leb. Qed.

Lemma double_not_ltb_leb x y :
  (x <=? x) = true → (y <=? y) = true → (y <? x) = false → (x <=? y) = true.
Proof. rewrite ltb_spec, !leb_spec. apply SFltb_false_leb. Qed.

End Double_facts.

(** ** The filter *)

Lemma find_if_le {A} (p : A → bool) v : find_if p v ≤ length v.
Proof. induction v as [|x v IH]; simpl; [lia|]. destruct (p x); lia. Qed.

Lemma find_if_found {A} (p : A → bool) v x :
  x ∈ v → p x = true → ∃ y, v !! find_if p v = Some y ∧ p y = true.
Proof.
  induction v as [|a v IH]; intros Hin Hp.
  - by apply elem_of_nil in Hin.
  - simpl. destruct (p a) eqn:Ea; [by exists a|].
    apply elem_of_cons in Hin as [->|Hin]; [congruence|]. by apply IH.
Qed.

Lemma find_if_before {A} (p : A → bool) v j x :
  j < find_if p v → v !! j = Some x → p x = false.
Proof.
  revert j. induction v as [|a v IH]; intros j Hj Hx; [done|].
  simpl in Hj. destruct (p a) eqn:Ea; [lia|].
  destruct j as [|j]; simpl in Hx; [congruence|]. apply (IH j); [lia|done].
Qed.

Lemma find_if_none {A} (p : A → bool) v :
  (∀ x, x ∈ v → p x = false) → find_if p v = length v.
Proof.
  induction v as [|a v IH]; intros H; [done|]. simpl.
  rewrite (H a) by apply list_elem_of_here.
  f_equal. apply IH. intros x Hx. apply H. by apply list_elem_of_further.
Qed.

Lemma ascendingb_ascending eps : ascendingb eps = true → ascending eps.
Proof.
  induction eps as [|a eps IH]; intros H i x y Hx Hy; [done|].
  destruct eps as [|b eps]; [by destruct i|].
  simpl in H. apply andb_true_iff in H as [Hab H].
  destruct i as [|i]; simpl in *; [congruence|].
  by apply (IH H i).
Qed.

Lemma ascending_le eps i j x y :
  ascending eps → i < j → eps !! i = Some x → eps !! j = Some y →
  (x <=? y)%float = true.
Proof.
  intros Hasc Hij Hx. revert y. induction j as [|j IH]; intros y Hy; [lia|].
  destruct (decide (i = j)) as [->|Hne].
  - by apply (Hasc j).
  - destruct (eps !! j) as [z|] eqn:Hz.
    + apply double_leb_trans with z; [apply IH; [lia|done]|by apply (Hasc j)].
    + apply lookup_ge_None in Hz. apply lookup_lt_Some in Hy. lia.
Qed.

Lemma ascending_le_last eps x back :
  ascending eps → x ∈ eps → list.last eps = Some back →
  (back <=? back)%float = true → (x <=? back)%float = true.
Proof.
  intros Hasc Hx Hlast Hrefl.
  apply list_elem_of_lookup in Hx as [i Hi].
  rewrite last_lookup in Hlast.
  pose proof (lookup_lt_Some _ _ _ Hi) as Hlt.
  destruct (decide (i = Init.Nat.pred (length eps))) as [->|Hne].
  - congruence.
  - apply (ascending_le eps i (Init.Nat.pred (length eps))); [done|lia|done|done].
Qed.

(** The fields the filter sets from the iterator. *)
Lemma lindep_filter_fields N eps threshold st :
  let it := find_if (λ x, ge x threshold) eps in
  let r := lindep_filter N eps threshold st in
  first_above_thresh r = Some it ∧
  n_illcond r = Z.of_nat it ∧
  n_cond r = (Z.of_nat N - Z.of_nat it)%Z ∧
  condition_number r = condition_number st.
Proof. done. Qed.

(** C2.  On an ascending eigenvalue sequence of length [N >= 1] with some
    eigenvalue [>= threshold], the filter leaves in [first_above_thresh] the
    index [k] of the first eigenvalue [>= threshold] (every earlier one is
    strictly below, one equal to the threshold is kept), [n_illcond = k],
    [n_cond = N - n_illcond], and [result_condition_number] is the last,
    hence largest, eigenvalue divided by [eps[k]].  On
    [[1e-12, 0.5, 1.0, 2.0]] with threshold [1e-10]: [n_illcond = 1],
    [n_cond = 3], [result_condition_number = 4.0]. *)
Theorem lindep_filter_first_retained :
  (∀ (N : nat) (eps : list float) (threshold : float) (st : locals),
      length eps = N → 1 ≤ N → ascending eps →
      (∃ x, x ∈ eps ∧ ge x threshold = true) →
      let r := lindep_filter N eps threshold st in
      ∃ (k : nat) (first back : float),
        first_above_thresh r = Some k ∧ k < N ∧
        eps !! k = Some first ∧ ge first threshold = true ∧
        (∀ j x, j < k → eps !! j = Some x → (x <? threshold)%float = true) ∧
        n_illcond r = Z.of_nat k ∧
        n_cond r = (Z.of_nat N - n_illcond r)%Z ∧
        list.last eps = Some back ∧
        (∀ x, x ∈ eps → (x <=? back)%float = true) ∧
        result_condition_number r = Some (back / first)%float) ∧
  (let r := lindep_filter 4 [1e-12; 0.5; 1; 2]%float 1e-10 declared in
   n_illcond r = 1%Z ∧ n_cond r = 3%Z ∧
   result_condition_number r = Some 4%float).
Proof.
  split; [|by vm_compute].
  intros N eps threshold st Hlen HN Hasc (x0 & Hin & Hge) r.
  destruct (find_if_found (λ x, ge x threshold) eps x0 Hin Hge) as (first & Hk & Hfirst).
  set (k := find_if (λ x, ge x threshold) eps) in *.
  assert (Hback : is_Some (list.last eps)).
  { rewrite last_lookup. apply lookup_lt_is_Some. lia. }
  destruct Hback as [back Hback].
  assert (Hthr : (threshold <=? threshold)%float = true).
  { unfold ge in Hfirst. by apply double_leb_refl_l in Hfirst. }
  assert (Hnan : ∀ x, x ∈ eps → (x <=? x)%float = true).
  { intros x Hx. apply list_elem_of_lookup in Hx as [i Hi].
    destruct (decide (i = k)) as [->|Hne].
    - rewrite Hk in Hi. injection Hi as <-. unfold ge in Hfirst. by apply double_leb_refl_r in Hfirst.
    - destruct (decide (i < k)) as [Hlt|Hge'].
      + apply double_leb_refl_l with first. by apply (ascending_le eps i k).
      + apply double_leb_refl_r with first. apply (ascending_le eps k i); [done|lia|done|done]. }
  exists k, first, back. repeat split; try done.
  - subst N. by apply lookup_lt_Some in Hk.
  - intros j x Hj Hx.
    apply double_not_leb_ltb; [apply Hnan; apply list_elem_of_lookup; eauto|done|].
    apply (find_if_before (λ x, ge x threshold) eps j x Hj Hx).
  - intros x Hx. apply (ascending_le_last eps); try done.
    apply Hnan. rewrite last_lookup in Hback. apply list_elem_of_lookup; eauto.
  - unfold r, lindep_filter. simpl. fold k. by rewrite Hback, Hk.
Qed.

Lemma lindep_filter_first_retained_witness :
  ∃ (k : nat) (first back : float),
    let eps := [0.25; 0.5; 3]%float in
    let r := lindep_filter 3 eps 0.5 declared in
    first_above_thresh r = Some k ∧ k < 3 ∧
    eps !! k = Some first ∧ ge first 0.5 = true ∧
    (∀ j x, j < k → eps !! j = Some x → (x <? 0.5)%float = true) ∧
    n_illcond r = Z.of_nat k ∧
    n_cond r = (3 - n_illcond r)%Z ∧
    list.last eps = Some back ∧
    (∀ x, x ∈ eps → (x <=? back)%float = true) ∧
    result_condition_number r = Some (back / first)%float.
Proof.
  apply (proj1 lindep_filter_first_retained 3 [0.25; 0.5; 3]%float 0.5%float declared).
  - reflexivity.
  - lia.
  - apply ascendingb_ascending. reflexivity.
  - exists 3%float. split; [|reflexivity]. apply list_elem_of_In. simpl. tauto.
Defined.

Lemma find_if_all_below eps threshold back :
  ascending eps → list.last eps = Some back → (back <? threshold)%float = true →
  find_if (λ x, ge x threshold) eps = length eps.
Proof.
  intros Hasc Hback Hlt. apply find_if_none. intros x Hx.
  destruct (ge x threshold) eqn:Hge; [|done]. unfold ge in Hge.
  assert ((x <=? back)%float = true) as Hxb.
  { apply (ascending_le_last eps); try done. by apply double_ltb_refl_l in Hlt. }
  pose proof (double_leb_trans _ _ _ Hge Hxb) as Htb.
  apply double_ltb_not_leb in Hlt. congruence.
Qed.

(** C4 as stated fails: with the threshold equal to the largest eigenvalue
    the test [x >= threshold] keeps that eigenvalue.  On the ascending
    sequence [[0.5, 1.0, 2.0]] with [threshold = 2.0]: [n_illcond = 2] and
    [n_cond = 1]. *)
Lemma threshold_equal_to_largest_is_retained :
  let eps := [0.5; 1; 2]%float in
  let threshold := 2%float in
  let r := lindep_filter 3 eps threshold declared in
  ascending eps ∧ list.last eps = Some 2%float ∧ ge threshold 2 = true ∧
  n_illcond r = 2%Z ∧ n_cond r = 1%Z ∧ n_cond r ≠ 0%Z.
Proof.
  intros eps threshold r. split; [apply ascendingb_ascending; reflexivity|].
  by vm_compute.
Qed.

(** C4, amended.  On an ascending eigenvalue sequence, a threshold strictly
    greater than the largest eigenvalue discards every direction:
    [n_illcond = N] and [n_cond = 0]. *)
Theorem lindep_filter_threshold_above_largest
    (N : nat) (eps : list float) (threshold back : float) (st : locals) :
  length eps = N → ascending eps → list.last eps = Some back →
  (back <? threshold)%float = true →
  n_illcond (lindep_filter N eps threshold st) = Z.of_nat N ∧
  n_cond (lindep_filter N eps threshold st) = 0%Z.
Proof.
  intros Hlen Hasc Hback Hlt.
  destruct (lindep_filter_fields N eps threshold st) as (_ & Hill & Hcond & _).
  rewrite Hill, Hcond, (find_if_all_below eps threshold back), Hlen by done.
  split; [done|lia].
Qed.

Lemma lindep_filter_threshold_above_largest_witness :
  n_illcond (lindep_filter 3 [0.25; 0.5; 3]%float 3.5 declared) = 3%Z ∧
  n_cond (lindep_filter 3 [0.25; 0.5; 3]%float 3.5 declared) = 0%Z.
Proof.
  apply (lindep_filter_threshold_above_largest 3 [0.25; 0.5; 3]%float 3.5%float 3%float declared).
  - reflexivity.
  - apply ascendingb_ascending. reflexivity.
  - reflexivity.
  - reflexivity.
Defined.

(** ** Row-major matrices *)

Lemma length_tabulate r c f : length (data (tabulate r c f)) = r * c.
Proof. unfold tabulate. simpl. by rewrite length_fmap, length_seq. Qed.

Lemma lookup_tabulate r c f i j :
  i < r → j < c → data (tabulate r c f) !! (i * c + j) = Some (f i j).
Proof.
  intros Hi Hj. unfold tabulate. simpl.
  rewrite list_lookup_fmap, lookup_seq_lt by nia. simpl.
  f_equal. f_equal.
  - rewrite Nat.add_comm, Nat.div_add by lia. rewrite Nat.div_small by lia. lia.
  - rewrite Nat.add_comm, Nat.Div0.mod_add. by apply Nat.mod_small.
Qed.

Lemma coeff_tabulate r c f i j :
  i < r → j < c → coeff (tabulate r c f) i j = f i j.
Proof.
  intros Hi Hj. unfold coeff. apply list_lookup_total_correct.
  by apply lookup_tabulate.
Qed.

Lemma tabulate_ext r c f g :
  (∀ i j, i < r → j < c → f i j = g i j) → tabulate r c f = tabulate r c g.
Proof.
  intros H. unfold tabulate. f_equal.
  apply list_eq. intros k. rewrite !list_lookup_fmap.
  destruct (seq 0 (r * c) !! k) as [k'|] eqn:Hk; [|done]. simpl.
  apply lookup_seq in Hk as [-> Hk]. simpl. f_equal.
  destruct c as [|c]; [lia|].
  apply H.
  - apply Nat.Div0.div_lt_upper_bound. lia.
  - apply Nat.mod_upper_bound. lia.
Qed.

Lemma row_major_index_inj c r j r' j' :
  j < c → j' < c → r * c + j = r' * c + j' → r = r' ∧ j = j'.
Proof.
  intros Hj Hj' Heq.
  destruct (Nat.lt_trichotomy r r') as [Hlt|[->|Hgt]].
  - pose proof (Nat.mul_le_mono_r (S r) r' c ltac:(lia)). lia.
  - lia.
  - pose proof (Nat.mul_le_mono_r (S r') r c ltac:(lia)). lia.
Qed.

(** One call of [scal] with stride [c] from offset [i] rescales column
    [i] of the first [n] rows and nothing else. *)
Lemma lookup_scal n alpha x i c r j :
  i < c → j < c →
  scal n alpha x i c !! (r * c + j) =
  if decide (j = i ∧ r < n)
  then (λ v, alpha * v)%float <$> x !! (r * c + j)
  else x !! (r * c + j).
Proof.
  intros Hi Hj. unfold scal. induction n as [|n IH].
  - simpl. case_decide; [lia|done].
  - rewrite seq_S, foldl_snoc. simpl.
    destruct (decide (i + n * c = r * c + j)) as [Heq|Hne].
    + assert (r = n ∧ j = i) as [-> ->].
      { apply (row_major_index_inj c); [done|done|lia]. }
      rewrite Heq, list_lookup_alter_eq, IH.
      rewrite decide_False by lia. by rewrite decide_True by lia.
    + rewrite list_lookup_alter_ne by done. rewrite IH.
      destruct (decide (j = i ∧ r < n)) as [[-> ?]|Hn].
      * by rewrite decide_True by lia.
      * rewrite decide_False; [done|]. intros [-> ?].
        assert (r = n) as -> by lia. lia.
Qed.

Lemma length_scal n alpha x i c : length (scal n alpha x i c) = length x.
Proof.
  unfold scal. induction n as [|n IH]; [done|].
  by rewrite seq_S, foldl_snoc, length_alter.
Qed.

(** ** The two entry points *)

Section Entry_point_facts.

Variable syevd : nat → list float → list float * list float.

Lemma decompose_root N S1 :
  let '(V, eps) := decompose syevd 0 N S1 in
  rows V = N ∧ cols V = N ∧ length (data V) = N * N ∧ length eps = N.
Proof. unfold decompose. simpl. by rewrite !length_resize. Qed.

Lemma before_broadcast_root N S1 threshold :
  before_broadcast syevd 0 N S1 threshold =
  lindep_filter N (decompose syevd 0 N S1).2 threshold declared.
Proof. done. Qed.

Lemma before_broadcast_other rank N S1 threshold :
  rank ≠ 0 → before_broadcast syevd rank N S1 threshold = declared.
Proof. intros H. unfold before_broadcast. by rewrite decide_False. Qed.

(** After the broadcast every rank of the group holds rank 0's [n_illcond]. *)
Lemma n_illcond_after_broadcast world_size world_rank N S1 threshold :
  world_rank < world_size →
  n_illcond (after_broadcast syevd world_size world_rank N S1 threshold) =
  n_illcond (before_broadcast syevd 0 N S1 threshold).
Proof.
  intros Hr. unfold after_broadcast. simpl.
  destruct (decide (1 < world_size)); [done|].
  by replace world_rank with 0 by lia.
Qed.

Lemma n_cond_after_broadcast world_size world_rank N S1 threshold :
  n_cond (after_broadcast syevd world_size world_rank N S1 threshold) =
  (Z.of_nat N - n_illcond (after_broadcast syevd world_size world_rank N S1 threshold))%Z.
Proof. done. Qed.

(** C1.  Rank 0 computes [n_illcond]; when the group has more than one
    process it is broadcast; every rank then sets [n_cond = N - n_illcond].
    So on any two ranks of the group, for every overlap matrix and
    threshold, [gensqrtinv] leaves the same [sys_data.nbf] and returns the
    same [n_cond], namely [N] minus rank 0's [n_illcond], and so does
    [gensqrtinv_atscf]. *)
Theorem n_cond_agrees_on_every_rank
    (world_size N : nat) (S1 : list float) (threshold : float) (r1 r2 : nat) :
  r1 < world_size → r2 < world_size →
  let root := before_broadcast syevd 0 N S1 threshold in
  let g1 := gensqrtinv syevd world_size r1 N S1 threshold in
  let g2 := gensqrtinv syevd world_size r2 N S1 threshold in
  let a1 := gensqrtinv_atscf syevd world_size r1 N S1 threshold in
  let a2 := gensqrtinv_atscf syevd world_size r2 N S1 threshold in
  n_lindep g1 = n_illcond root ∧
  nbf g1 = (Z.of_nat N - n_illcond root)%Z ∧
  nbf g1 = nbf g2 ∧
  (returned g1).1.1 = (returned g2).1.1 ∧
  (returned_atscf a1).1.1.2 = (Z.of_nat N - n_illcond root)%Z ∧
  (returned_atscf a1).1.1.2 = (returned_atscf a2).1.1.2.
Proof.
  intros H1 H2 root g1 g2 a1 a2.
  pose proof (n_illcond_after_broadcast world_size r1 N S1 threshold H1) as E1.
  pose proof (n_illcond_after_broadcast world_size r2 N S1 threshold H2) as E2.
  unfold g1, g2, a1, a2, gensqrtinv, gensqrtinv_atscf.
  destruct (decompose syevd 0 N S1) as [V eps]. cbn -[after_broadcast].
  rewrite !n_cond_after_broadcast, E1, E2. done.
Qed.

Lemma canonical_X_shape V N st :
  let X := canonical_X V N st in
  let c := Z.to_nat (Z.of_nat N - n_illcond st) in
  rows X = N ∧ cols X = c ∧ length (data X) = N * c.
Proof.
  intros X c. unfold X, canonical_X, transpose. rewrite length_tabulate.
  repeat split; reflexivity.
Qed.

Lemma lookup_canonical_X V N st mu i :
  mu < N → i < Z.to_nat (Z.of_nat N - n_illcond st) →
  data (canonical_X V N st) !! (mu * Z.to_nat (Z.of_nat N - n_illcond st) + i) =
  Some (coeff V (Z.to_nat (n_illcond st) + i) mu).
Proof.
  intros Hmu Hi. unfold canonical_X, transpose.
  change (rows (block _ _ _ _ _)) with (Z.to_nat (Z.of_nat N - n_illcond st)).
  change (cols (block _ _ _ _ _)) with N.
  rewrite lookup_tabulate by done.
  unfold block. by rewrite coeff_tabulate.
Qed.

(** The column loop, stopped after [m] columns. *)
Lemma scale_columns_prefix N (eps : list float) st X m :
  let c := Z.to_nat (n_cond st) in
  let body := λ (X : Matrix) (i : nat),
    with_data X (scal N (1 / sqrt (eps !!! (assigned st + i)%nat))%float (data X) i c) in
  let X' := foldl body X (seq 0 m) in
  m ≤ c →
  rows X' = rows X ∧ cols X' = cols X ∧ length (data X') = length (data X) ∧
  ∀ r j, j < c →
    data X' !! (r * c + j) =
    if decide (j < m ∧ r < N)
    then (λ v, 1 / sqrt (eps !!! (assigned st + j)%nat) * v)%float <$> data X !! (r * c + j)
    else data X !! (r * c + j).
Proof.
  intros c body. induction m as [|m IH]; intros X' Hm.
  - split; [done|]. split; [done|]. split; [done|].
    intros r j Hj. by rewrite decide_False by lia.
  - unfold X'. rewrite seq_S, foldl_snoc. simpl.
    destruct IH as (Hr & Hc & Hl & IH); [lia|].
    unfold body at 1. unfold with_data. simpl.
    rewrite length_scal.
    split; [done|]. split; [done|]. split; [done|].
    intros r j Hj. rewrite lookup_scal by lia. rewrite IH by done.
    destruct (decide (j = m ∧ r < N)) as [[-> ?]|Hn].
    + rewrite decide_False by lia. by rewrite decide_True by lia.
    + destruct (decide (j < m ∧ r < N)) as [[? ?]|Hn'].
      * by rewrite decide_True by lia.
      * rewrite decide_False; [done|]. intros [? ?]. apply Hn'. split; [|done].
        destruct (decide (j = m)) as [->|]; [|lia]. exfalso. by apply Hn.
Qed.

Lemma scale_columns_spec N (eps : list float) st X :
  let c := Z.to_nat (n_cond st) in
  let X' := scale_columns N eps st X in
  rows X' = rows X ∧ cols X' = cols X ∧ length (data X') = length (data X) ∧
  ∀ r j, r < N → j < c →
    data X' !! (r * c + j) =
    (λ v, 1 / sqrt (eps !!! (assigned st + j)%nat) * v)%float <$> data X !! (r * c + j).
Proof.
  intros c X'.
  destruct (scale_columns_prefix N eps st X c (Nat.le_refl _)) as (Hr & Hc & Hl & H).
  split; [done|]. split; [done|]. split; [done|].
  intros r j Hr' Hj. unfold X', scale_columns. fold c. rewrite H by done.
  by rewrite decide_True by lia.
Qed.

(** Rank 0 after the broadcast: the iterator and the two counts. *)
Lemma after_broadcast_root world_size N S1 threshold :
  let eps := (decompose syevd 0 N S1).2 in
  let it := find_if (λ x, ge x threshold) eps in
  let root := after_broadcast syevd world_size 0 N S1 threshold in
  assigned root = it ∧ n_illcond root = Z.of_nat it ∧
  n_cond root = (Z.of_nat N - Z.of_nat it)%Z ∧ it ≤ N.
Proof.
  intros eps it root. unfold root, after_broadcast.
  rewrite before_broadcast_root. fold eps. simpl. fold it.
  destruct (decide (1 < world_size)); repeat split; try done;
    (pose proof (find_if_le (λ x, ge x threshold) eps) as Hle;
     pose proof (decompose_root N S1) as Hd;
     unfold eps in *; destruct (decompose syevd 0 N S1) as [V e]; simpl in *;
     fold it in Hle; lia).
Qed.

(** What rank 0 holds for entry [(mu, i)] of the transform: the component
    [u] of the eigenvector, the eigenvalue [e], and the two ways the entry
    points scale. *)
Lemma root_transform world_size N S1 threshold :
  let V := (decompose syevd 0 N S1).1 in
  let eps := (decompose syevd 0 N S1).2 in
  let root := after_broadcast syevd world_size 0 N S1 threshold in
  let k := Z.to_nat (n_illcond root) in
  let c := Z.to_nat (n_cond root) in
  k + c = N ∧
  ∀ mu i, mu < N → i < c →
    ∃ u e, data V !! ((k + i) * N + mu) = Some u ∧ eps !! (k + i) = Some e ∧
      coeff (canonical_X V N root) mu i = u ∧
      eps_tamm eps root !!! i = (1 / sqrt e)%float ∧
      coeff (scale_columns N eps root (canonical_X V N root)) mu i
        = (1 / sqrt e * u)%float.
Proof.
  intros V eps root k c.
  destruct (after_broadcast_root world_size N S1 threshold) as (Hit & Hill & Hcond & Hle).
  fold eps root in Hit, Hill, Hcond, Hle.
  set (it := find_if (λ x, ge x threshold) eps) in *.
  assert (k = it) as Hk by (unfold k; lia).
  assert (c = N - it) as Hc by (unfold c; lia).
  pose proof (decompose_root N S1) as Hd. fold V eps in Hd.
  assert (rows V = N ∧ cols V = N ∧ length (data V) = N * N ∧ length eps = N)
    as (HrV & HcV & HlV & Hleps).
  { unfold V, eps. by destruct (decompose syevd 0 N S1). }
  split; [lia|]. intros mu i Hmu Hi.
  assert (is_Some (data V !! ((k + i) * N + mu))) as [u Hu].
  { apply lookup_lt_is_Some. rewrite HlV.
    pose proof (Nat.mul_le_mono_r (S (k + i)) N N ltac:(lia)). lia. }
  assert (is_Some (eps !! (k + i))) as [e He].
  { apply lookup_lt_is_Some. lia. }
  assert (Z.to_nat (Z.of_nat N - n_illcond root) = c) as Hc' by (unfold c; lia).
  assert (data (canonical_X V N root) !! (mu * c + i) = Some u) as HX.
  { rewrite <- Hc'. rewrite lookup_canonical_X by lia. f_equal.
    unfold coeff. fold k. rewrite HcV. by apply list_lookup_total_correct. }
  destruct (canonical_X_shape V N root) as (HrX & HcX & HlX).
  rewrite Hc' in HcX, HlX.
  exists u, e. repeat split; try done.
  - unfold coeff. rewrite HcX. by apply list_lookup_total_correct.
  - unfold eps_tamm. apply list_lookup_total_correct.
    rewrite list_lookup_fmap, lookup_drop, Hit, <- Hk, He. done.
  - destruct (scale_columns_spec N eps root (canonical_X V N root))
      as (_ & HcS & _ & HS).
    unfold coeff. rewrite HcS, HcX. apply list_lookup_total_correct.
    fold c in HS. rewrite HS by done. rewrite HX. simpl.
    rewrite Hit, <- Hk. by rewrite (list_lookup_total_correct _ _ _ He).
Qed.

(** C5.  When [n_cond >= 1], the transform left in [ttensors.X_alpha] by
    [gensqrtinv] and the matrix returned by [gensqrtinv_atscf] are both
    [N x n_cond], and entry [(mu, i)] is component [mu] of the eigenvector
    of index [n_illcond + i] multiplied by
    [1 / sqrt (eps[n_illcond + i])]. *)
Theorem transform_is_scaled_eigenvectors
    (world_size world_rank N : nat) (S1 : list float) (threshold : float) :
  let V := (decompose syevd 0 N S1).1 in
  let eps := (decompose syevd 0 N S1).2 in
  let g := gensqrtinv syevd world_size world_rank N S1 threshold in
  let a := gensqrtinv_atscf syevd world_size world_rank N S1 threshold in
  world_rank < world_size → (1 ≤ nbf g)%Z →
  (returned_atscf a).1.1.2 = nbf g ∧
  canonical_transform V eps N (Z.to_nat (n_lindep g)) (Z.to_nat (nbf g)) (X_alpha g) ∧
  canonical_transform V eps N (Z.to_nat (n_lindep g)) (Z.to_nat (nbf g))
    (returned_atscf a).1.1.1.
Proof.
  intros V eps g a Hrank Hpos.
  destruct (root_transform world_size N S1 threshold) as (HkcN & Hroot).
  fold V eps in Hroot.
  pose proof (n_illcond_after_broadcast world_size world_rank N S1 threshold Hrank) as E.
  pose proof (n_illcond_after_broadcast world_size 0 N S1 threshold ltac:(lia)) as E0.
  set (st := after_broadcast syevd world_size world_rank N S1 threshold) in *.
  set (root := after_broadcast syevd world_size 0 N S1 threshold) in *.
  assert (n_illcond st = n_illcond root) as Eill by congruence.
  assert (n_cond st = n_cond root) as Econd.
  { unfold st, root. rewrite !n_cond_after_broadcast. fold st root. by rewrite Eill. }
  assert (n_lindep g = n_illcond root ∧ nbf g = n_cond root ∧
          X_alpha g = tabulate N (Z.to_nat (n_cond root))
            (λ mu mu_o, coeff (canonical_X V N root) mu mu_o
                        * eps_tamm eps root !!! mu_o)%float ∧
          returned_atscf a =
            (tabulate N (Z.to_nat (n_cond root))
               (λ mu mu_o, coeff (scale_columns N eps root (canonical_X V N root)) mu mu_o),
             n_cond root, condition_number st, result_condition_number st))
    as (Hl & Hn & HX & Ha).
  { unfold g, a, gensqrtinv, gensqrtinv_atscf, V, eps. fold st root.
    destruct (decompose syevd 0 N S1) as [V' eps']. cbn [n_lindep nbf X_alpha returned_atscf fst snd].
    by rewrite Eill, Econd. }
  rewrite Hl, Hn, HX, Ha. cbn [fst snd]. split; [done|].
  split.
  - split; [done|]. split; [done|]. split; [apply length_tabulate|].
    intros mu i Hmu Hi. destruct (Hroot mu i Hmu Hi) as (u & e & Hu & He & HXc & Hs & _).
    exists u, e. split; [done|]. split; [done|].
    rewrite lookup_tabulate by done. by rewrite HXc, Hs.
  - split; [done|]. split; [done|]. split; [apply length_tabulate|].
    intros mu i Hmu Hi. destruct (Hroot mu i Hmu Hi) as (u & e & Hu & He & _ & _ & HS).
    exists u, e. split; [done|]. split; [done|].
    rewrite lookup_tabulate by done. rewrite HS. f_equal. apply double_mul_comm.
Qed.

(** On one process the two entry points build the same matrix, counts and
    printed lines, and each takes its [result_condition_number] from the
    filter run on its own [eps]. *)
Lemma atscf_same_transform (N : nat) (S1 : list float) (threshold : float) :
  let eps := (decompose syevd 0 N S1).2 in
  let g := gensqrtinv syevd 1 0 N S1 threshold in
  let a := gensqrtinv_atscf syevd 1 0 N S1 threshold in
  (returned_atscf a).1.1.1 = X_alpha g ∧
  (returned_atscf a).1.1.2 = (returned g).1.1 ∧
  (returned_atscf a).1.2 = (returned g).1.2 ∧
  printed_atscf a = printed g ∧
  (returned g).2 = result_condition_number (lindep_filter N eps threshold declared) ∧
  (returned_atscf a).2 = result_condition_number (lindep_filter N eps threshold declared).
Proof.
  intros eps g a. subst eps g a.
  destruct (root_transform 1 N S1 threshold) as (_ & Hroot).
  assert (result_condition_number (after_broadcast syevd 1 0 N S1 threshold)
          = result_condition_number
              (lindep_filter N (decompose syevd 0 N S1).2 threshold declared)) as Hrcn
    by done.
  unfold gensqrtinv, gensqrtinv_atscf.
  set (root := after_broadcast syevd 1 0 N S1 threshold) in *.
  clearbody root.
  destruct (decompose syevd 0 N S1) as [V eps]. cbn [fst snd] in Hroot, Hrcn.
  cbn [returned X_alpha returned_atscf printed printed_atscf fst snd].
  split; [|done].
  apply tabulate_ext. intros mu i Hmu Hi.
  destruct (Hroot mu i Hmu Hi) as (u & e & _ & _ & HXc & Hs & HS).
  rewrite HS, HXc, Hs. apply double_mul_comm.
Qed.

(** C6, what the code does.  On one process, for the same matrix and
    threshold: when some eigenvalue is [>= threshold], [gensqrtinv_atscf]
    returns the very matrix that [gensqrtinv] leaves in [ttensors.X_alpha],
    the same [n_cond], the same [condition_number] and the same
    [result_condition_number], a quotient of two elements of [eps], and
    prints the same lines (equality of [float] is equality of the binary64
    values).  When every eigenvalue is strictly below the threshold the two
    still agree on the matrix, which has no column, and on [n_cond = 0], but
    neither [result_condition_number] is a value of the input: each entry
    point divides by a read one past the end of its own [eps]. *)
Theorem atscf_agrees_with_gensqrtinv (N : nat) (S1 : list float) (threshold : float) :
  let eps := (decompose syevd 0 N S1).2 in
  let g := gensqrtinv syevd 1 0 N S1 threshold in
  let a := gensqrtinv_atscf syevd 1 0 N S1 threshold in
  ((∃ x, x ∈ eps ∧ ge x threshold = true) →
   ∃ (k : nat) (first back : float),
     first_above_thresh (before_broadcast syevd 0 N S1 threshold) = Some k ∧
     eps !! k = Some first ∧ list.last eps = Some back ∧
     (returned g).2 = Some (back / first)%float ∧
     returned_atscf a =
       (X_alpha g, (returned g).1.1, (returned g).1.2, Some (back / first)%float) ∧
     printed_atscf a = printed g) ∧
  (1 ≤ N → (∀ x, x ∈ eps → (x <? threshold)%float = true) →
   (returned_atscf a).1.1.1 = X_alpha g ∧ cols (X_alpha g) = 0 ∧
   (returned_atscf a).1.1.2 = (returned g).1.1 ∧ (returned g).1.1 = 0%Z ∧
   first_above_thresh (before_broadcast syevd 0 N S1 threshold) = Some (length eps) ∧
   eps !! length eps = None ∧
   (returned g).2 = None ∧ (returned_atscf a).2 = None).
Proof.
  intros eps g a.
  destruct (atscf_same_transform N S1 threshold) as (HX & Hn & Hc & Hp & Hg & Ha).
  fold eps g a in HX, Hn, Hc, Hp, Hg, Ha.
  assert (length eps = N) as Hlen.
  { pose proof (decompose_root N S1) as Hd. unfold eps.
    destruct (decompose syevd 0 N S1). simpl. tauto. }
  assert ((returned g).1.1 = (Z.of_nat N - Z.of_nat (find_if (λ x, ge x threshold) eps))%Z)
    as Hcond.
  { destruct (after_broadcast_root 1 N S1 threshold) as (_ & _ & Hcond & _).
    fold eps in Hcond. rewrite <- Hcond.
    unfold g, gensqrtinv. by destruct (decompose syevd 0 N S1). }
  assert (cols (X_alpha g) = Z.to_nat (returned g).1.1) as Hcols.
  { unfold g, gensqrtinv. by destruct (decompose syevd 0 N S1). }
  rewrite before_broadcast_root. fold eps.
  split.
  - intros (x0 & Hin & Hge).
    destruct (find_if_found (λ x, ge x threshold) eps x0 Hin Hge) as (first & Hk & _).
    assert (is_Some (list.last eps)) as [back Hback].
    { rewrite last_lookup. apply lookup_lt_is_Some.
      apply list_elem_of_lookup in Hin as [i Hi]. apply lookup_lt_Some in Hi. lia. }
    assert (result_condition_number (lindep_filter N eps threshold declared)
            = Some (back / first)%float) as Hrcn.
    { unfold lindep_filter. cbn [result_condition_number]. by rewrite Hback, Hk. }
    exists (find_if (λ x, ge x threshold) eps), first, back.
    split; [done|]. split; [done|]. split; [done|].
    split; [by rewrite Hg|]. split; [|done].
    rewrite <- HX, <- Hn, <- Hc, <- Hrcn, <- Ha.
    by destruct (returned_atscf a) as [[[X n] c] r].
  - intros HN Hbelow.
    assert (find_if (λ x, ge x threshold) eps = length eps) as Hit.
    { apply find_if_none. intros x Hx. unfold ge. apply double_ltb_not_leb. by apply Hbelow. }
    assert (eps !! length eps = None) as Hend by (by apply lookup_ge_None).
    assert (result_condition_number (lindep_filter N eps threshold declared) = None)
      as Hrcn.
    { unfold lindep_filter. cbn [result_condition_number]. rewrite Hit, Hend.
      by destruct (list.last eps). }
    rewrite Hit, Hlen in Hcond.
    split; [done|]. split; [rewrite Hcols, Hcond; f_equal; lia|].
    split; [done|]. split; [lia|].
    split; [unfold lindep_filter; cbn [first_above_thresh]; by rewrite Hit|].
    split; [done|]. split; [by rewrite Hg|by rewrite Ha].
Qed.

(** C3, what the code does.  When every eigenvalue is strictly below the
    threshold, [n_illcond = N], [n_cond = 0] and the transform has no
    column, but [first_above_thresh] is [eps.end()] and is dereferenced:
    [result_condition_number] and the printed "first eigen value above
    tol_lindep" come from a read one past the last element of [eps]. *)
Theorem all_below_threshold_reads_past_the_end
    (world_size N : nat) (S1 : list float) (threshold : float) :
  let eps := (decompose syevd 0 N S1).2 in
  let root := before_broadcast syevd 0 N S1 threshold in
  let g := gensqrtinv syevd world_size 0 N S1 threshold in
  1 ≤ N → (∀ x, x ∈ eps → (x <? threshold)%float = true) →
  n_lindep g = Z.of_nat N ∧ nbf g = 0%Z ∧
  cols (X_alpha g) = 0 ∧ data (X_alpha g) = [] ∧
  first_above_thresh root = Some (length eps) ∧
  eps !! length eps = None ∧
  (returned g).2 = None ∧
  First_eigen_value_above_tol None ∈ printed g ∧
  reads_in_range root = false.
Proof.
  intros eps root g HN Hbelow.
  assert (length eps = N) as Hlen.
  { pose proof (decompose_root N S1) as Hd. unfold eps.
    destruct (decompose syevd 0 N S1). simpl. tauto. }
  assert (find_if (λ x, ge x threshold) eps = length eps) as Hit.
  { apply find_if_none. intros x Hx. unfold ge. apply double_ltb_not_leb. by apply Hbelow. }
  assert (eps !! length eps = None) as Hend by (by apply lookup_ge_None).
  assert (is_Some (list.last eps)) as [back Hback].
  { rewrite last_lookup. apply lookup_lt_is_Some. lia. }
  assert (root = {| n_cond := Z.of_nat N - Z.of_nat (length eps);
                    n_illcond := Z.of_nat (length eps);
                    condition_number := 0%float;
                    result_condition_number := None;
                    first_above_thresh := Some (length eps);
                    cout := [Found_linear_dependencies (Z.of_nat (length eps));
                             First_eigen_value_above_tol None;
                             Deemed_linearly_dependent (Z.of_nat (length eps))]
                            ++ ((λ i, Dropped_eigenvalue (Z.of_nat i + 1) (eps !! i))
                                  <$> seq 0 (Z.to_nat (Z.of_nat (length eps)))) |})
    as Hroot.
  { unfold root. rewrite before_broadcast_root. fold eps. unfold lindep_filter.
    rewrite Hit, Hend, Hback.
    replace (0 <? Z.of_nat (length eps))%Z with true by (symmetry; apply Z.ltb_lt; lia).
    done. }
  assert (n_illcond (after_broadcast syevd world_size 0 N S1 threshold) = Z.of_nat N)
    as Hill.
  { unfold after_broadcast. fold root. rewrite Hroot. simpl.
    destruct (decide (1 < world_size)); by rewrite Hlen. }
  assert (n_cond (after_broadcast syevd world_size 0 N S1 threshold) = 0%Z) as Hcond.
  { rewrite n_cond_after_broadcast, Hill. lia. }
  assert (result_condition_number (after_broadcast syevd world_size 0 N S1 threshold) = None
          ∧ cout (after_broadcast syevd world_size 0 N S1 threshold) = cout root)
    as [Hrcn Hcout].
  { unfold after_broadcast. fold root. by rewrite Hroot. }
  unfold g, gensqrtinv. destruct (decompose syevd 0 N S1) as [V eps'].
  cbn [n_lindep nbf X_alpha returned printed fst snd].
  rewrite Hill, Hcond, Hrcn, Hcout.
  split; [done|]. split; [done|]. split; [done|].
  split. { unfold tabulate. simpl. by rewrite Nat.mul_0_r. }
  split. { by rewrite Hroot. }
  split; [done|]. split; [done|].
  split.
  - rewrite Hroot. simpl. apply list_elem_of_further, list_elem_of_here.
  - by rewrite Hroot.
Qed.

(** C9.  [condition_number] is declared with [{}] and never assigned: the
    second component of the tuple returned by [gensqrtinv] and the third of
    the one returned by [gensqrtinv_atscf] are [0.0] on every rank, for
    every input. *)
Theorem condition_number_never_computed
    (world_size world_rank N : nat) (S1 : list float) (threshold : float) :
  (returned (gensqrtinv syevd world_size world_rank N S1 threshold)).1.2 = 0%float ∧
  (returned_atscf (gensqrtinv_atscf syevd world_size world_rank N S1 threshold)).1.2
    = 0%float.
Proof.
  unfold gensqrtinv, gensqrtinv_atscf.
  destruct (decompose syevd 0 N S1) as [V eps]. simpl.
  unfold before_broadcast. by destruct (decide (world_rank = 0)).
Qed.

End Entry_point_facts.

(** *** The entry points on concrete inputs *)

Lemma n_cond_agrees_on_every_rank_witness :
  let syevd := syevd_returning example_V example_eps in
  let root := before_broadcast syevd 0 4 example_V 1e-10 in
  let g1 := gensqrtinv syevd 2 0 4 example_V 1e-10 in
  let g2 := gensqrtinv syevd 2 1 4 example_V 1e-10 in
  let a1 := gensqrtinv_atscf syevd 2 0 4 example_V 1e-10 in
  let a2 := gensqrtinv_atscf syevd 2 1 4 example_V 1e-10 in
  n_lindep g1 = n_illcond root ∧
  nbf g1 = (Z.of_nat 4 - n_illcond root)%Z ∧
  nbf g1 = nbf g2 ∧
  (returned g1).1.1 = (returned g2).1.1 ∧
  (returned_atscf a1).1.1.2 = (Z.of_nat 4 - n_illcond root)%Z ∧
  (returned_atscf a1).1.1.2 = (returned_atscf a2).1.1.2.
Proof.
  apply (n_cond_agrees_on_every_rank (syevd_returning example_V example_eps)
           2 4 example_V 1e-10%float 0 1); lia.
Defined.

Lemma transform_is_scaled_eigenvectors_witness :
  let syevd := syevd_returning example_V example_eps in
  let V := (decompose syevd 0 4 example_V).1 in
  let eps := (decompose syevd 0 4 example_V).2 in
  let g := gensqrtinv syevd 2 1 4 example_V 1e-10 in
  let a := gensqrtinv_atscf syevd 2 1 4 example_V 1e-10 in
  (returned_atscf a).1.1.2 = nbf g ∧
  canonical_transform V eps 4 (Z.to_nat (n_lindep g)) (Z.to_nat (nbf g)) (X_alpha g) ∧
  canonical_transform V eps 4 (Z.to_nat (n_lindep g)) (Z.to_nat (nbf g))
    (returned_atscf a).1.1.1.
Proof.
  apply (transform_is_scaled_eigenvectors (syevd_returning example_V example_eps)
           2 1 4 example_V 1e-10%float).
  - lia.
  - by vm_compute.
Defined.

Lemma all_below_threshold_reads_past_the_end_witness :
  let syevd := syevd_returning [] [1e-12; 2e-12; 3e-12]%float in
  let eps := (decompose syevd 0 3 []).2 in
  let root := before_broadcast syevd 0 3 [] 1e-10 in
  let g := gensqrtinv syevd 1 0 3 [] 1e-10 in
  n_lindep g = 3%Z ∧ nbf g = 0%Z ∧
  cols (X_alpha g) = 0 ∧ data (X_alpha g) = [] ∧
  first_above_thresh root = Some (length eps) ∧
  eps !! length eps = None ∧
  (returned g).2 = None ∧
  First_eigen_value_above_tol None ∈ printed g ∧
  reads_in_range root = false.
Proof.
  apply (all_below_threshold_reads_past_the_end
           (syevd_returning [] [1e-12; 2e-12; 3e-12]%float) 1 3 [] 1e-10%float).
  - lia.
  - intros x Hx. vm_compute in Hx. apply list_elem_of_In in Hx. simpl in Hx.
    destruct Hx as [<-|[<-|[<-|[]]]]; reflexivity.
Defined.

Lemma atscf_agrees_with_gensqrtinv_witness :
  (let syevd := syevd_returning example_V example_eps in
   let eps := (decompose syevd 0 4 example_V).2 in
   let g := gensqrtinv syevd 1 0 4 example_V 1e-10 in
   let a := gensqrtinv_atscf syevd 1 0 4 example_V 1e-10 in
   ∃ (k : nat) (first back : float),
     first_above_thresh (before_broadcast syevd 0 4 example_V 1e-10) = Some k ∧
     eps !! k = Some first ∧ list.last eps = Some back ∧
     (returned g).2 = Some (back / first)%float ∧
     returned_atscf a =
       (X_alpha g, (returned g).1.1, (returned g).1.2, Some (back / first)%float) ∧
     printed_atscf a = printed g) ∧
  (let syevd := syevd_returning [] [1e-12; 2e-12; 3e-12]%float in
   let eps := (decompose syevd 0 3 []).2 in
   let g := gensqrtinv syevd 1 0 3 [] 1e-10 in
   let a := gensqrtinv_atscf syevd 1 0 3 [] 1e-10 in
   (returned_atscf a).1.1.1 = X_alpha g ∧ cols (X_alpha g) = 0 ∧
   (returned_atscf a).1.1.2 = (returned g).1.1 ∧ (returned g).1.1 = 0%Z ∧
   first_above_thresh (before_broadcast syevd 0 3 [] 1e-10) = Some (length eps) ∧
   eps !! length eps = None ∧
   (returned g).2 = None ∧ (returned_atscf a).2 = None).
Proof.
  split.
  - apply (proj1 (atscf_agrees_with_gensqrtinv (syevd_returning example_V example_eps)
                    4 example_V 1e-10%float)).
    exists 4%float. split; [|reflexivity].
    apply list_elem_of_In. vm_compute. tauto.
  - apply (proj2 (atscf_agrees_with_gensqrtinv
                    (syevd_returning [] [1e-12; 2e-12; 3e-12]%float) 3 [] 1e-10%float)).
    + lia.
    + intros x Hx. vm_compute in Hx. apply list_elem_of_In in Hx. simpl in Hx.
      destruct Hx as [<-|[<-|[<-|[]]]]; reflexivity.
Defined.

Example gensqrtinv_on_one_process :
  let g := gensqrtinv (syevd_returning example_V example_eps) 1 0 4 example_V 1e-10 in
  returned g = (3%Z, 0%float, Some 16%float) ∧
  n_lindep g = 1%Z ∧ nbf g = 3%Z ∧
  X_alpha g = {| rows := 4; cols := 3;
                 data := [0; 0; 0;
                          0; -1; 0;
                          2; 0; 0;
                          0; 0; 0.5]%float |}.
Proof. by vm_compute. Qed.

(** Only [n_illcond] is broadcast: a rank other than 0 returns the same
    [n_cond] and the same transform, with [result_condition_number] still
    [0.0], and prints nothing. *)
Example gensqrtinv_atscf_on_rank_1_of_2 :
  let a := gensqrtinv_atscf (syevd_returning example_V example_eps) 2 1 4 example_V 1e-10 in
  returned_atscf a =
    ({| rows := 4; cols := 3;
        data := [0; 0; 0;
                 0; -1; 0;
                 2; 0; 0;
                 0; 0; 0.5]%float |}, 3%Z, 0%float, Some 0%float) ∧
  printed_atscf a = [].
Proof. by vm_compute. Qed.

(** ** [int] arithmetic without overflow *)

Lemma wrap_small z :
  (-2147483648 ≤ z ≤ Int.INT_MAX)%Z → Int.wrap z = z.
Proof.
  unfold Int.wrap, Int.INT_MAX. intros H.
  rewrite Z.mod_small by lia. lia.
Qed.

Lemma of_size_small n : (Z.of_nat n ≤ Int.INT_MAX)%Z → Int.of_size n = Z.of_nat n.
Proof. intros H. apply wrap_small. unfold Int.INT_MAX in *. lia. Qed.

Lemma add_small a b :
  (0 ≤ a)%Z → (0 ≤ b)%Z → (a + b ≤ Int.INT_MAX)%Z → Int.add a b = (a + b)%Z.
Proof. intros. apply wrap_small. lia. Qed.

(** ** Sums of lengths *)

Lemma sum_list_app (l k : list nat) : sum_list (l ++ k) = sum_list l + sum_list k.
Proof. induction l as [|x l IH]; simpl; lia. Qed.

Lemma sum_list_take_le (l : list nat) i : sum_list (take i l) ≤ sum_list l.
Proof.
  rewrite <- (take_drop i l) at 2. rewrite sum_list_app. lia.
Qed.

Lemma sum_list_take_S (l : list nat) i x :
  l !! i = Some x → sum_list (take (S i) l) = sum_list (take i l) + x.
Proof.
  intros H. rewrite (take_S_r _ _ _ H), sum_list_app. simpl. lia.
Qed.

Lemma sum_list_lookup_le (l : list nat) i x : l !! i = Some x → x ≤ sum_list l.
Proof.
  intros H. pose proof (sum_list_take_le l (S i)) as Hle.
  rewrite (sum_list_take_S _ _ _ H) in Hle. lia.
Qed.

(** ** [gather_task_vectors] *)

Lemma displacements_split nranks c1 c2 c3 :
  displacements nranks c1 c2 c3 =
  (displacements_of nranks c1, displacements_of nranks c2, displacements_of nranks c3).
Proof.
  unfold displacements, displacements_of.
  generalize (replicate nranks 0%Z) at 1 4 as d1.
  generalize (replicate nranks 0%Z) at 1 3 as d2.
  generalize (replicate nranks 0%Z) as d3.
  induction (seq 0 nranks) as [|i l IH]; intros d3 d2 d1; [done|].
  simpl. apply IH.
Qed.

Lemma displacements_of_prefix (lens : list nat) m :
  (Z.of_nat (sum_list lens) ≤ Int.INT_MAX)%Z → m ≤ length lens →
  let d := foldl (disps_body (Z.of_nat <$> lens)) (replicate (length lens) 0%Z) (seq 0 m) in
  length d = length lens ∧
  ∀ i, i < m → d !! i = Some (exclusive_prefix_sum lens i).
Proof.
  intros Hfit. induction m as [|m IH]; intros Hm d.
  - split; [unfold d; simpl; by rewrite length_replicate|]. intros i Hi. lia.
  - unfold d. rewrite seq_S, foldl_snoc. simpl.
    destruct IH as [Hlen IH]; [lia|].
    set (d' := foldl (disps_body (Z.of_nat <$> lens)) (replicate (length lens) 0%Z) (seq 0 m)) in *.
    unfold disps_body. split; [by rewrite length_insert|].
    intros i Hi. destruct (decide (i = m)) as [->|Hne].
    + rewrite list_lookup_insert_eq by lia. f_equal.
      destruct (decide (0 < m)) as [Hpos|Hz].
      * destruct m as [|m']; [lia|]. replace (S m' - 0) with (S m') by lia.
        replace (S m' - 1) with m' by lia.
        assert (is_Some (lens !! m')) as [x Hx] by (apply lookup_lt_is_Some; lia).
        rewrite (list_lookup_total_correct d' m' _ (IH m' ltac:(lia))).
        rewrite (list_lookup_total_correct (Z.of_nat <$> lens) m' (Z.of_nat x))
          by (by rewrite list_lookup_fmap, Hx).
        unfold exclusive_prefix_sum. rewrite (sum_list_take_S _ _ _ Hx).
        pose proof (sum_list_take_le lens (S m')) as Hle.
        rewrite (sum_list_take_S _ _ _ Hx) in Hle.
        rewrite add_small by lia. lia.
      * assert (m = 0) as -> by lia. done.
    + rewrite list_lookup_insert_ne by done. apply IH. lia.
Qed.

Lemma place_append (done seg : list Z) n :
  place (done ++ replicate (length seg + n) 0%Z) (length done) seg =
  (done ++ seg) ++ replicate n 0%Z.
Proof.
  unfold place. rewrite take_app_length, drop_app_add, drop_replicate_add.
  by rewrite app_assoc.
Qed.

(** With counts equal to the lengths and displacements equal to their
    running sums, receiving fills the buffer with the concatenation. *)
Lemma gatherv_root_concat (vs : list (list Z)) :
  ∀ (done ds : list Z),
    length ds = length vs →
    (∀ i, i < length vs →
          ds !! i = Some (Z.of_nat (length done + sum_list (take i (length <$> vs))))) →
    gatherv_root (done ++ replicate (sum_list (length <$> vs)) 0%Z) vs
                 (Z.of_nat <$> (length <$> vs)) ds
    = Ok (done ++ concat vs).
Proof.
  induction vs as [|v vs IH]; intros done ds Hlen Hds.
  - simpl. by rewrite !app_nil_r.
  - destruct ds as [|d ds]; [done|]. simpl in Hlen.
    pose proof (Hds 0 ltac:(simpl; lia)) as Hd. simpl in Hd.
    injection Hd as ->. rewrite Nat.add_0_r.
    cbn [fmap list_fmap sum_list sum_list_with gatherv_root].
    change (id (length v)) with (length v).
    rewrite decide_True.
    2:{ rewrite length_app, length_replicate. lia. }
    rewrite !Nat2Z.id, firstn_all, place_append.
    rewrite (IH (done ++ v) ds); [by rewrite <- app_assoc|lia|].
    intros i Hi. pose proof (Hds (S i) ltac:(simpl; lia)) as HS.
    cbn [lookup list_lookup take fmap list_fmap sum_list sum_list_with] in HS.
    change (id (length v)) with (length v) in HS.
    etrans; [exact HS|]. rewrite length_app. do 2 f_equal. lia.
Qed.

Lemma of_size_fits (lens : list nat) :
  fits lens → Int.of_size <$> lens = Z.of_nat <$> lens.
Proof.
  intros Hfit. apply list_fmap_ext. intros i x Hx. apply of_size_small.
  pose proof (sum_list_lookup_le _ _ _ Hx). unfold fits in Hfit. lia.
Qed.

Lemma message_fits (vs : list (list Z)) :
  fits (length <$> vs) → message <$> vs = vs.
Proof.
  intros Hfit. rewrite <- (list_fmap_id vs) at 2.
  apply list_fmap_ext. intros i v Hv. unfold message.
  rewrite of_size_small, Nat2Z.id; [apply firstn_all|].
  assert ((length <$> vs) !! i = Some (length v)) as Hx by (by rewrite list_lookup_fmap, Hv).
  pose proof (sum_list_lookup_le _ _ _ Hx). unfold fits in Hfit. lia.
Qed.

(** One of the three vectors on rank 0: displacements, size of the
    receive buffer, and content after [gatherv]. *)
Lemma gather_one (proj : task_vectors → list Z) (g : group) :
  g ≠ [] → fits (length ∘ proj <$> g) →
  let lens := length ∘ proj <$> g in
  let count := Int.of_size ∘ length ∘ proj <$> g in
  let d := displacements_of (length g) count in
  length d = length g ∧
  (∀ i, i < length g → d !! i = Some (exclusive_prefix_sum lens i)) ∧
  (∃ x y, index d (Z.of_nat (length g) - 1) = Ok x ∧
          index count (Z.of_nat (length g) - 1) = Ok y ∧
          resize (Int.add x y) = Ok (replicate (sum_list lens) 0%Z)) ∧
  gatherv_root (replicate (sum_list lens) 0%Z) (message ∘ proj <$> g) count d
  = Ok (concat (proj <$> g)).
Proof.
  intros Hne Hfit lens count d.
  assert (count = Z.of_nat <$> lens) as Hcount.
  { unfold count, lens. rewrite (list_fmap_compose (length ∘ proj) Int.of_size).
    by apply of_size_fits. }
  assert (length lens = length g) as Hll by (unfold lens; by rewrite length_fmap).
  destruct (displacements_of_prefix lens (length lens) Hfit (Nat.le_refl _)) as [Hlen Hd].
  assert (d = foldl (disps_body (Z.of_nat <$> lens)) (replicate (length lens) 0%Z)
                (seq 0 (length lens))) as Hdd.
  { unfold d, displacements_of. by rewrite Hcount, Hll. }
  rewrite <- Hdd, Hll in Hlen, Hd. clear Hdd.
  split; [done|]. split; [done|]. split.
  - assert (0 < length g) as Hpos by (destruct g; [done|simpl; lia]).
    set (k := length g - 1).
    assert (is_Some (lens !! k)) as [x Hx] by (apply lookup_lt_is_Some; lia).
    exists (exclusive_prefix_sum lens k), (Z.of_nat x).
    replace (Z.of_nat (length g) - 1)%Z with (Z.of_nat k) by lia.
    unfold index. rewrite !decide_True by lia. rewrite !Nat2Z.id.
    rewrite (Hd k) by lia. rewrite Hcount, list_lookup_fmap, Hx. simpl.
    split; [done|]. split; [done|].
    assert (sum_list lens = sum_list (take k lens) + x) as Hsum.
    { rewrite <- (sum_list_take_S _ _ _ Hx). replace (S k) with (length lens) by lia.
      by rewrite firstn_all. }
    unfold fits in Hfit. fold lens in Hfit. unfold exclusive_prefix_sum.
    rewrite add_small by lia. unfold resize. rewrite decide_False by lia.
    do 2 f_equal. lia.
  - rewrite (list_fmap_compose proj message), message_fits.
    2:{ by rewrite <- list_fmap_compose. }
    rewrite Hcount. unfold lens. rewrite (list_fmap_compose proj length).
    apply (gatherv_root_concat (proj <$> g) [] d).
    + by rewrite length_fmap.
    + intros i Hi. rewrite length_fmap in Hi. rewrite (Hd i Hi). simpl.
      unfold exclusive_prefix_sum, lens. by rewrite (list_fmap_compose proj length).
Qed.

Lemma bind_Ok {A B} (a : A) (f : A → outcome B) : (Ok a ≫= f) = f a.
Proof. done. Qed.

Lemma bind_Fatal {A B} e (f : A → outcome B) : (Fatal e ≫= f) = Fatal e.
Proof. done. Qed.

Lemma pg_gather_root xs rbuf : pg_gather xs 0 rbuf = xs.
Proof. done. Qed.

Lemma pg_gatherv_root sent vec_size rbuf count disps at_root :
  pg_gatherv sent vec_size 0 rbuf count disps at_root = gatherv_root rbuf sent count disps.
Proof. done. Qed.

(** What rank 0 holds after the three [gatherv] calls when the reported
    lengths add up within [int]. *)
Lemma gather_phase_on_root (g : group) :
  g ≠ [] →
  fits (length ∘ s1vec <$> g) → fits (length ∘ s2vec <$> g) →
  fits (length ∘ ntask_vec <$> g) →
  gather_phase g 0 =
  Ok {| disps_s1 := displacements_of (length g) (Int.of_size ∘ length ∘ s1vec <$> g);
        disps_s2 := displacements_of (length g) (Int.of_size ∘ length ∘ s2vec <$> g);
        disps_nt := displacements_of (length g) (Int.of_size ∘ length ∘ ntask_vec <$> g);
        s1_all := concat (s1vec <$> g);
        s2_all := concat (s2vec <$> g);
        ntasks_all := concat (ntask_vec <$> g) |}.
Proof.
  intros Hne H1 H2 H3.
  destruct (gather_one s1vec g Hne H1) as (_ & _ & (x1 & y1 & I1 & J1 & R1) & V1).
  destruct (gather_one s2vec g Hne H2) as (_ & _ & (x2 & y2 & I2 & J2 & R2) & V2).
  destruct (gather_one ntask_vec g Hne H3) as (_ & _ & (x3 & y3 & I3 & J3 & R3) & V3).
  unfold gather_phase. rewrite !pg_gather_root, displacements_split.
  cbv beta iota zeta. rewrite decide_True by done. unfold allocate.
  rewrite I1, bind_Ok, J1, bind_Ok, R1, bind_Ok.
  rewrite I2, bind_Ok, J2, bind_Ok, R2, bind_Ok.
  rewrite I3, bind_Ok, J3, bind_Ok, R3, bind_Ok.
  unfold mret, outcome_ret. rewrite bind_Ok.
  rewrite !pg_gatherv_root.
  rewrite V1, bind_Ok, V2, bind_Ok, V3, bind_Ok. done.
Qed.

Lemma length_concat_proj (proj : task_vectors → list Z) (g : group) :
  length (concat (proj <$> g)) = sum_list (length ∘ proj <$> g).
Proof. rewrite length_concat. by rewrite <- list_fmap_compose. Qed.

(** C7, amended.  For a group of [P >= 1] ranks whose local lengths
    (zero included) add up, for each of the three vectors, to at most
    [INT_MAX = 2^31 - 1]: on rank 0 the displacements are the exclusive
    prefix sums of the reported lengths in rank order, and each gathered
    vector is the concatenation of the local vectors by ascending rank,
    each in its local order, so its length is the sum of the local lengths.
    When the three sums agree the call returns these three vectors. *)
Theorem gather_concatenates_by_rank (g : group) :
  let len1 := length ∘ s1vec <$> g in
  let len2 := length ∘ s2vec <$> g in
  let len3 := length ∘ ntask_vec <$> g in
  g ≠ [] → fits len1 → fits len2 → fits len3 →
  ∃ r, gather_phase g 0 = Ok r ∧
    (∀ i, i < length g →
       disps_s1 r !! i = Some (exclusive_prefix_sum len1 i) ∧
       disps_s2 r !! i = Some (exclusive_prefix_sum len2 i) ∧
       disps_nt r !! i = Some (exclusive_prefix_sum len3 i)) ∧
    s1_all r = concat (s1vec <$> g) ∧
    s2_all r = concat (s2vec <$> g) ∧
    ntasks_all r = concat (ntask_vec <$> g) ∧
    length (s1_all r) = sum_list len1 ∧
    length (s2_all r) = sum_list len2 ∧
    length (ntasks_all r) = sum_list len3 ∧
    (sum_list len1 = sum_list len2 → sum_list len1 = sum_list len3 →
     gather_task_vectors g 0 = Ok (s1_all r, s2_all r, ntasks_all r)).
Proof.
  intros len1 len2 len3 Hne H1 H2 H3.
  pose proof (gather_phase_on_root g Hne H1 H2 H3) as Hphase.
  destruct (gather_one s1vec g Hne H1) as (_ & D1 & _).
  destruct (gather_one s2vec g Hne H2) as (_ & D2 & _).
  destruct (gather_one ntask_vec g Hne H3) as (_ & D3 & _).
  eexists. split; [exact Hphase|].
  cbn [disps_s1 disps_s2 disps_nt s1_all s2_all ntasks_all].
  split; [by auto|]. do 3 (split; [done|]).
  do 3 (split; [apply length_concat_proj|]).
  intros E12 E13. unfold gather_task_vectors. rewrite Hphase, bind_Ok.
  cbn [s1_all s2_all ntasks_all]. rewrite !length_concat_proj. fold len1 len2 len3.
  rewrite <- E12, <- E13. rewrite !bool_decide_eq_true_2 by done. done.
Qed.

Lemma gather_concatenates_by_rank_witness :
  let t0 := {| s1vec := [10; 11]; s2vec := [20; 21]; ntask_vec := [1; 2] |}%Z in
  let t1 := {| s1vec := []; s2vec := []; ntask_vec := [] |} in
  let t2 := {| s1vec := [12; 13; 14]; s2vec := [22; 23; 24]; ntask_vec := [3; 4; 5] |}%Z in
  let g := [t0; t1; t2] in
  let len1 := length ∘ s1vec <$> g in
  let len2 := length ∘ s2vec <$> g in
  let len3 := length ∘ ntask_vec <$> g in
  ∃ r, gather_phase g 0 = Ok r ∧
    (∀ i, i < length g →
       disps_s1 r !! i = Some (exclusive_prefix_sum len1 i) ∧
       disps_s2 r !! i = Some (exclusive_prefix_sum len2 i) ∧
       disps_nt r !! i = Some (exclusive_prefix_sum len3 i)) ∧
    s1_all r = concat (s1vec <$> g) ∧
    s2_all r = concat (s2vec <$> g) ∧
    ntasks_all r = concat (ntask_vec <$> g) ∧
    length (s1_all r) = sum_list len1 ∧
    length (s2_all r) = sum_list len2 ∧
    length (ntasks_all r) = sum_list len3 ∧
    (sum_list len1 = sum_list len2 → sum_list len1 = sum_list len3 →
     gather_task_vectors g 0 = Ok (s1_all r, s2_all r, ntasks_all r)).
Proof.
  intros t0 t1 t2 g.
  apply (gather_concatenates_by_rank g).
  - discriminate.
  - unfold fits, Int.INT_MAX. simpl. lia.
  - unfold fits, Int.INT_MAX. simpl. lia.
  - unfold fits, Int.INT_MAX. simpl. lia.
Defined.

Lemma wrap_range z : (-2147483648 ≤ Int.wrap z ≤ Int.INT_MAX)%Z.
Proof.
  unfold Int.wrap, Int.INT_MAX.
  pose proof (Z.mod_pos_bound (z + 2147483648) 4294967296 ltac:(lia)). lia.
Qed.

(** A group of one rank whose [s1vec] has a size that [(int)] makes
    negative: the receive buffer cannot be resized. *)
Lemma gather_phase_negative_count (t : task_vectors) :
  (Int.of_size (length (s1vec t)) < 0)%Z → gather_phase [t] 0 = Fatal Length_error.
Proof.
  intros Hneg. unfold gather_phase.
  rewrite !pg_gather_root, displacements_split.
  cbv beta iota zeta. rewrite decide_True by done. unfold allocate.
  change (index (displacements_of (length [t]) (Int.of_size ∘ length ∘ s1vec <$> [t]))
            (Z.of_nat (length [t]) - 1))
    with (Ok 0%Z : outcome Z).
  rewrite bind_Ok.
  change (index (Int.of_size ∘ length ∘ s1vec <$> [t]) (Z.of_nat (length [t]) - 1))
    with (Ok (Int.of_size (length (s1vec t))) : outcome Z).
  rewrite bind_Ok.
  unfold Int.add. rewrite Z.add_0_l.
  rewrite (wrap_small (Int.of_size (length (s1vec t)))) by apply wrap_range.
  unfold resize. rewrite decide_True by done. done.
Qed.

(** C7 as stated fails: with one rank holding vectors of [2^31] elements,
    [(int) s1vec.size()] is [-2^31], the receive buffer is resized to a
    negative [int] and the call ends in [std::length_error]; no gathered
    vector exists. *)
Lemma gather_of_2pow31_elements_is_fatal :
  let v := replicate (Z.to_nat 2147483648) 0%Z in
  let g := [{| s1vec := v; s2vec := v; ntask_vec := v |}] in
  g ≠ [] ∧
  gather_task_vectors g 0 = Fatal Length_error ∧
  ¬ ∃ r, gather_phase g 0 = Ok r ∧ s1_all r = concat (s1vec <$> g).
Proof.
  intros v g.
  assert (gather_phase g 0 = Fatal Length_error) as Hphase.
  { apply gather_phase_negative_count. cbn [s1vec]. unfold v.
    rewrite length_replicate. unfold Int.of_size.
    rewrite Z2Nat.id by lia. by vm_compute. }
  split; [discriminate|]. split.
  - unfold gather_task_vectors. by rewrite Hphase.
  - intros (r & Hr & _). rewrite Hphase in Hr. discriminate.
Qed.

Lemma no_expects_bind {A B} (m : outcome A) (f : A → outcome B) :
  no_expects m → (∀ a, no_expects (f a)) → no_expects (m ≫= f).
Proof.
  unfold no_expects. intros Hm Hf. destruct m as [a|e].
  - rewrite bind_Ok. apply Hf.
  - rewrite bind_Fatal. intros [= ->]. by apply Hm.
Qed.

Lemma no_expects_Ok {A} (a : A) : no_expects (Ok a).
Proof. done. Qed.

Lemma no_expects_index v i : no_expects (index v i).
Proof. unfold index. destruct (decide (0 ≤ i)%Z); [destruct (v !! Z.to_nat i)|]; done. Qed.

Lemma no_expects_resize n : no_expects (resize n).
Proof. unfold resize. by destruct (decide (n < 0)%Z). Qed.

Lemma no_expects_gatherv_root sent :
  ∀ rbuf count disps, no_expects (gatherv_root rbuf sent count disps).
Proof.
  induction sent as [|m sent IH]; intros rbuf count disps; [done|].
  destruct count as [|c count], disps as [|d disps]; try done.
  simpl. destruct (decide _); [apply IH|done].
Qed.

Lemma no_expects_allocate nranks c1 c2 c3 d1 d2 d3 :
  no_expects (allocate nranks c1 c2 c3 d1 d2 d3).
Proof.
  unfold allocate.
  repeat (apply no_expects_bind;
          [first [apply no_expects_index | apply no_expects_resize]|intros ?]).
  done.
Qed.

Lemma no_expects_root_receives g :
  no_expects (root_receives g).1.1 ∧ no_expects (root_receives g).1.2 ∧
  no_expects (root_receives g).2.
Proof.
  unfold root_receives. cbv zeta.
  destruct (displacements _ _ _ _) as [[d1 d2] d3]. cbn [fst snd].
  assert (∀ (sel : list Z * list Z * list Z → list Z) sent count disps,
            no_expects (allocate (length g) (Int.of_size ∘ length ∘ s1vec <$> g)
                          (Int.of_size ∘ length ∘ s2vec <$> g)
                          (Int.of_size ∘ length ∘ ntask_vec <$> g) d1 d2 d3 ≫=
                        λ b, gatherv_root (sel b) sent count disps)) as Hrecv.
  { intros sel sent count disps. apply no_expects_bind; [apply no_expects_allocate|].
    intros b. apply no_expects_gatherv_root. }
  assert (no_expects
            (allocate (length g) (Int.of_size ∘ length ∘ s1vec <$> g)
               (Int.of_size ∘ length ∘ s2vec <$> g)
               (Int.of_size ∘ length ∘ ntask_vec <$> g) d1 d2 d3 ≫=
             λ b, gatherv_root b.1.1 (message ∘ s1vec <$> g)
                    (Int.of_size ∘ length ∘ s1vec <$> g) d1)) as H1
    by apply (Hrecv (λ b, b.1.1)).
  split; [exact H1|]. split.
  - apply no_expects_bind; [exact H1|]. intros _. apply (Hrecv (λ b, b.1.2)).
  - apply no_expects_bind.
    + apply no_expects_bind; [exact H1|]. intros _. apply (Hrecv (λ b, b.1.2)).
    + intros _. apply (Hrecv (λ b, b.2)).
Qed.

Lemma no_expects_pg_gatherv sent vec_size rank rbuf count disps at_root :
  no_expects at_root → no_expects (pg_gatherv sent vec_size rank rbuf count disps at_root).
Proof.
  intros Hroot. unfold pg_gatherv.
  destruct (decide (rank = 0)); [apply no_expects_gatherv_root|].
  destruct (decide (vec_size < 0)%Z); [done|].
  by apply no_expects_bind.
Qed.

Lemma gather_phase_no_expects g rank : no_expects (gather_phase g rank).
Proof.
  destruct (no_expects_root_receives g) as (R1 & R2 & R3).
  unfold gather_phase. cbv zeta.
  destruct (displacements _ _ _ _) as [[d1 d2] d3].
  apply no_expects_bind.
  - destruct (decide (rank = 0)); [apply no_expects_allocate|done].
  - intros [[a1 a2] a3].
    apply no_expects_bind; [by apply no_expects_pg_gatherv|intros ?].
    apply no_expects_bind; [by apply no_expects_pg_gatherv|intros ?].
    apply no_expects_bind; [by apply no_expects_pg_gatherv|intros ?].
    done.
Qed.

(** C8.  After the three [gatherv] calls the lengths of [s1_all], [s2_all]
    and [ntasks_all] are compared.  The call ends in a failed [EXPECTS]
    exactly when the gathers completed and the three lengths are not all
    equal; when it returns, it returns the three gathered vectors and they
    have the same length.  On rank 0, with lengths that add up within
    [int], the check fails exactly when the three sums of local lengths are
    not all equal. *)
Theorem expects_checks_equal_lengths (g : group) (rank : nat) :
  (gather_task_vectors g rank = Fatal Expects_violated ↔
   ∃ r, gather_phase g rank = Ok r ∧
        ¬ (length (s1_all r) = length (s2_all r) ∧
           length (s1_all r) = length (ntasks_all r))) ∧
  (∀ a b c, gather_task_vectors g rank = Ok (a, b, c) →
            length a = length b ∧ length a = length c ∧
            ∃ r, gather_phase g rank = Ok r ∧
                 a = s1_all r ∧ b = s2_all r ∧ c = ntasks_all r) ∧
  (rank = 0 → g ≠ [] →
   fits (length ∘ s1vec <$> g) → fits (length ∘ s2vec <$> g) →
   fits (length ∘ ntask_vec <$> g) →
   (gather_task_vectors g rank = Fatal Expects_violated ↔
    ¬ (sum_list (length ∘ s1vec <$> g) = sum_list (length ∘ s2vec <$> g) ∧
       sum_list (length ∘ s1vec <$> g) = sum_list (length ∘ ntask_vec <$> g)))).
Proof.
  assert (gather_task_vectors g rank = Fatal Expects_violated ↔
          ∃ r, gather_phase g rank = Ok r ∧
               ¬ (length (s1_all r) = length (s2_all r) ∧
                  length (s1_all r) = length (ntasks_all r))) as Hiff.
  { pose proof (gather_phase_no_expects g rank) as Hsafe.
    unfold gather_task_vectors, no_expects in *.
    destruct (gather_phase g rank) as [r|e].
    - rewrite bind_Ok. unfold EXPECTS.
      destruct (bool_decide (length (s1_all r) = length (s2_all r))) eqn:E12;
        [destruct (bool_decide (length (s1_all r) = length (ntasks_all r))) eqn:E13|].
      + apply bool_decide_eq_true in E12, E13.
        split; [done|]. intros (r' & [= <-] & Hne). by destruct Hne.
      + apply bool_decide_eq_true in E12. apply bool_decide_eq_false in E13.
        split; [|done]. intros _. exists r. split; [done|]. tauto.
      + apply bool_decide_eq_false in E12.
        split; [|done]. intros _. exists r. split; [done|]. tauto.
    - rewrite bind_Fatal. split; [congruence|]. intros (r & Hr & _). discriminate. }
  split; [exact Hiff|]. split.
  - intros a b c. unfold gather_task_vectors.
    destruct (gather_phase g rank) as [r|e]; [|discriminate].
    rewrite bind_Ok. unfold EXPECTS.
    destruct (bool_decide (length (s1_all r) = length (s2_all r))) eqn:E12;
      [destruct (bool_decide (length (s1_all r) = length (ntasks_all r))) eqn:E13|];
      try discriminate.
    apply bool_decide_eq_true in E12, E13.
    intros [= <- <- <-]. split; [done|]. split; [done|]. by exists r.
  - intros -> Hne H1 H2 H3. rewrite Hiff.
    rewrite (gather_phase_on_root g Hne H1 H2 H3). split.
    + intros (r & [= <-] & Hr). cbn [s1_all s2_all ntasks_all] in Hr.
      by rewrite !length_concat_proj in Hr.
    + intros Hr. eexists. split; [done|]. cbn [s1_all s2_all ntasks_all].
      by rewrite !length_concat_proj.
Qed.

Lemma expects_checks_equal_lengths_witness :
  let g := [{| s1vec := [7]; s2vec := []; ntask_vec := [2] |}]%Z in
  gather_task_vectors g 0 = Fatal Expects_violated ↔
  ¬ (sum_list (length ∘ s1vec <$> g) = sum_list (length ∘ s2vec <$> g) ∧
     sum_list (length ∘ s1vec <$> g) = sum_list (length ∘ ntask_vec <$> g)).
Proof.
  intros g.
  apply (proj2 (proj2 (expects_checks_equal_lengths g 0))).
  - reflexivity.
  - discriminate.
  - unfold fits, Int.INT_MAX. simpl. lia.
  - unfold fits, Int.INT_MAX. simpl. lia.
  - unfold fits, Int.INT_MAX. simpl. lia.
Defined.

(** The buffers rank 0 allocates when the reported lengths add up within
    [int]. *)
Lemma allocate_fits (g : group) :
  g ≠ [] →
  fits (length ∘ s1vec <$> g) → fits (length ∘ s2vec <$> g) →
  fits (length ∘ ntask_vec <$> g) →
  allocate (length g)
    (Int.of_size ∘ length ∘ s1vec <$> g) (Int.of_size ∘ length ∘ s2vec <$> g)
    (Int.of_size ∘ length ∘ ntask_vec <$> g)
    (displacements_of (length g) (Int.of_size ∘ length ∘ s1vec <$> g))
    (displacements_of (length g) (Int.of_size ∘ length ∘ s2vec <$> g))
    (displacements_of (length g) (Int.of_size ∘ length ∘ ntask_vec <$> g))
  = Ok (replicate (sum_list (length ∘ s1vec <$> g)) 0%Z,
        replicate (sum_list (length ∘ s2vec <$> g)) 0%Z,
        replicate (sum_list (length ∘ ntask_vec <$> g)) 0%Z).
Proof.
  intros Hne H1 H2 H3.
  destruct (gather_one s1vec g Hne H1) as (_ & _ & (x1 & y1 & I1 & J1 & R1) & _).
  destruct (gather_one s2vec g Hne H2) as (_ & _ & (x2 & y2 & I2 & J2 & R2) & _).
  destruct (gather_one ntask_vec g Hne H3) as (_ & _ & (x3 & y3 & I3 & J3 & R3) & _).
  unfold allocate. cbv zeta.
  rewrite I1, bind_Ok, J1, bind_Ok, R1, bind_Ok.
  rewrite I2, bind_Ok, J2, bind_Ok, R2, bind_Ok.
  rewrite I3, bind_Ok, J3, bind_Ok, R3, bind_Ok.
  done.
Qed.

(** Rank 0 completes the three [gatherv] calls when the reported lengths
    add up within [int]. *)
Lemma root_receives_fits (g : group) :
  g ≠ [] →
  fits (length ∘ s1vec <$> g) → fits (length ∘ s2vec <$> g) →
  fits (length ∘ ntask_vec <$> g) →
  root_receives g =
  (Ok (concat (s1vec <$> g)), Ok (concat (s2vec <$> g)), Ok (concat (ntask_vec <$> g))).
Proof.
  intros Hne H1 H2 H3.
  destruct (gather_one s1vec g Hne H1) as (_ & _ & _ & V1).
  destruct (gather_one s2vec g Hne H2) as (_ & _ & _ & V2).
  destruct (gather_one ntask_vec g Hne H3) as (_ & _ & _ & V3).
  unfold root_receives. rewrite displacements_split. cbv beta iota zeta.
  rewrite (allocate_fits g Hne H1 H2 H3), !bind_Ok. cbn [fst snd].
  by rewrite V1, !bind_Ok, V2, !bind_Ok, V3.
Qed.

(** A rank other than 0 that sends three sizes of [int] to a rank 0 that
    receives: nothing is allocated and nothing is stored. *)
Lemma gather_phase_other_rank (g : group) (rank : nat) :
  rank ≠ 0 →
  (0 ≤ Int.of_size (length (s1vec (own g rank))))%Z →
  (0 ≤ Int.of_size (length (s2vec (own g rank))))%Z →
  (0 ≤ Int.of_size (length (ntask_vec (own g rank))))%Z →
  (∃ r1 r2 r3, root_receives g = (Ok r1, Ok r2, Ok r3)) →
  ∃ r, gather_phase g rank = Ok r ∧
       s1_all r = [] ∧ s2_all r = [] ∧ ntasks_all r = [].
Proof.
  intros Hr S1 S2 S3 (r1 & r2 & r3 & Hroot).
  unfold gather_phase, pg_gather. cbv zeta. rewrite Hroot. cbn [fst snd].
  destruct (displacements _ _ _ _) as [[d1 d2] d3].
  rewrite !decide_False by done.
  unfold mret, outcome_ret. rewrite bind_Ok. cbv beta iota.
  unfold pg_gatherv. rewrite !decide_False by first [done|lia].
  rewrite !bind_Ok. by eexists.
Qed.

Lemma own_lookup (g : group) (rank : nat) (t : task_vectors) :
  g !! rank = Some t → own g rank = t.
Proof. unfold own. by intros ->. Qed.

(** A rank other than 0 whose [s1vec] has a size that [(int)] makes
    negative: its first [gatherv] is called with a negative send count. *)
Lemma gather_phase_negative_send_count (g : group) (rank : nat) (t : task_vectors) :
  rank ≠ 0 → g !! rank = Some t →
  (Int.of_size (length (s1vec t)) < 0)%Z →
  gather_phase g rank = Fatal Gatherv_invalid.
Proof.
  intros Hr Ht Hneg.
  pose proof (own_lookup g rank t Ht) as Hown.
  unfold gather_phase, pg_gather. cbv zeta. rewrite Hown.
  destruct (displacements _ _ _ _) as [[d1 d2] d3].
  rewrite !decide_False by done.
  unfold mret, outcome_ret. rewrite bind_Ok. cbv beta iota.
  assert (∀ sent rbuf count disps at_root,
            pg_gatherv sent (Int.of_size (length (s1vec t))) rank rbuf count disps at_root
            = Fatal Gatherv_invalid) as ->; [|done].
  intros. unfold pg_gatherv. rewrite decide_False by done. by rewrite decide_True.
Qed.

(** C10 as stated fails: in a group of two ranks, rank 1 holding vectors
    of [2^31] elements calls [gatherv] with the send count
    [(int) s1vec.size() = -2^31]; the call is an error and rank 1 returns
    nothing. *)
Lemma other_rank_with_2pow31_elements_is_fatal :
  let v := replicate (Z.to_nat 2147483648) 0%Z in
  let g := [{| s1vec := [1]; s2vec := [2]; ntask_vec := [3] |}%Z;
            {| s1vec := v; s2vec := v; ntask_vec := v |}] in
  1 ≠ 0 ∧ 1 < length g ∧
  gather_task_vectors g 1 = Fatal Gatherv_invalid ∧
  gather_task_vectors g 1 ≠ Ok ([], [], []).
Proof.
  intros v g.
  assert (gather_phase g 1 = Fatal Gatherv_invalid) as Hphase.
  { apply (gather_phase_negative_send_count g 1 {| s1vec := v; s2vec := v; ntask_vec := v |});
      [done|done|].
    cbn [s1vec]. unfold v. rewrite length_replicate. unfold Int.of_size.
    rewrite Z2Nat.id by lia. by vm_compute. }
  split; [done|]. split; [simpl; lia|].
  unfold gather_task_vectors. rewrite Hphase. by split.
Qed.

(** C10, amended.  In a group whose local lengths add up, for each of the
    three vectors, to at most [INT_MAX = 2^31 - 1], every rank of the group
    other than 0 returns three empty vectors: it sends its three vectors,
    rank 0 receives them, and the receive buffers of the rank are never
    resized. *)
Theorem other_ranks_return_empty (g : group) (rank : nat) :
  rank ≠ 0 → rank < length g →
  fits (length ∘ s1vec <$> g) → fits (length ∘ s2vec <$> g) →
  fits (length ∘ ntask_vec <$> g) →
  gather_task_vectors g rank = Ok ([], [], []).
Proof.
  intros Hr Hlt H1 H2 H3.
  assert (g ≠ []) as Hne by (destruct g; [simpl in Hlt; lia|done]).
  destruct (lookup_lt_is_Some_2 g rank Hlt) as [t Ht].
  pose proof (own_lookup g rank t Ht) as Hown.
  assert (∀ proj : task_vectors → list Z, fits (length ∘ proj <$> g) →
            (0 ≤ Int.of_size (length (proj (own g rank))))%Z) as Hsize.
  { intros proj Hfit. rewrite Hown.
    assert ((length ∘ proj <$> g) !! rank = Some (length (proj t))) as Hx
      by (by apply (list_lookup_fmap_Some_2 (length ∘ proj))).
    pose proof (sum_list_lookup_le _ _ _ Hx). unfold fits in Hfit.
    rewrite of_size_small; lia. }
  destruct (gather_phase_other_rank g rank Hr
              (Hsize s1vec H1) (Hsize s2vec H2) (Hsize ntask_vec H3))
    as (r & Hphase & E1 & E2 & E3).
  { rewrite (root_receives_fits g Hne H1 H2 H3). by do 3 eexists. }
  unfold gather_task_vectors. rewrite Hphase, bind_Ok, E1, E2, E3. done.
Qed.

Lemma other_ranks_return_empty_witness :
  gather_task_vectors
    [{| s1vec := [10; 11]; s2vec := [20; 21]; ntask_vec := [1; 2] |};
     {| s1vec := [12]; s2vec := [22]; ntask_vec := [3] |}]%Z 1
  = Ok ([], [], []).
Proof.
  apply other_ranks_return_empty.
  - lia.
  - simpl. lia.
  - unfold fits, Int.INT_MAX. simpl. lia.
  - unfold fits, Int.INT_MAX. simpl. lia.
  - unfold fits, Int.INT_MAX. simpl. lia.
Defined.

(** Three ranks contributing [s1] lengths 2, 0 and 3. *)
Example gather_three_ranks :
  let g := [{| s1vec := [10; 11]; s2vec := [20; 21]; ntask_vec := [1; 2] |};
            {| s1vec := []; s2vec := []; ntask_vec := [] |};
            {| s1vec := [12; 13; 14]; s2vec := [22; 23; 24]; ntask_vec := [3; 4; 5] |}]%Z in
  gather_phase g 0 =
    Ok {| disps_s1 := [0; 2; 2]; disps_s2 := [0; 2; 2]; disps_nt := [0; 2; 2];
          s1_all := [10; 11; 12; 13; 14];
          s2_all := [20; 21; 22; 23; 24];
          ntasks_all := [1; 2; 3; 4; 5] |}%Z ∧
  gather_task_vectors g 0 =
    Ok ([10; 11; 12; 13; 14], [20; 21; 22; 23; 24], [1; 2; 3; 4; 5])%Z ∧
  gather_task_vectors g 2 = Ok ([], [], []).
Proof. by vm_compute. Qed.

(** * Part III: further properties of the code *)

(** ** The filter on arbitrary spectra *)

Lemma find_if_lookup {A} (p : A → bool) v y :
  v !! find_if p v = Some y → p y = true.
Proof.
  induction v as [|a v IH]; [done|]. simpl.
  destruct (p a) eqn:Ea; simpl; [by intros [= <-]|]. apply IH.
Qed.

Lemma find_if_mono {A} (p q : A → bool) v :
  (∀ x, x ∈ v → q x = true → p x = true) → find_if p v ≤ find_if q v.
Proof.
  induction v as [|a v IH]; intros H; [done|]. simpl.
  destruct (p a) eqn:Ea; [lia|].
  destruct (q a) eqn:Eq.
  - rewrite (H a) in Ea; [done|apply list_elem_of_here|done].
  - apply le_n_S, IH. intros x Hx. apply H. by apply list_elem_of_further.
Qed.

(** Raising the threshold never retains more directions. *)
Theorem raising_threshold_drops_more
    (N : nat) (eps : list float) (t1 t2 : float) (st : locals) :
  (t1 <=? t2)%float = true →
  (n_illcond (lindep_filter N eps t1 st) ≤ n_illcond (lindep_filter N eps t2 st))%Z ∧
  (n_cond (lindep_filter N eps t2 st) ≤ n_cond (lindep_filter N eps t1 st))%Z.
Proof.
  intros Hle.
  assert (find_if (λ x, ge x t1) eps ≤ find_if (λ x, ge x t2) eps) as Hm.
  { apply find_if_mono. intros x _. unfold ge. by apply double_leb_trans. }
  destruct (lindep_filter_fields N eps t1 st) as (_ & -> & -> & _).
  destruct (lindep_filter_fields N eps t2 st) as (_ & -> & -> & _).
  lia.
Qed.

Lemma raising_threshold_drops_more_witness :
  (n_illcond (lindep_filter 3 [0.25; 0.5; 3]%float 0.3 declared)
   ≤ n_illcond (lindep_filter 3 [0.25; 0.5; 3]%float 1 declared))%Z ∧
  (n_cond (lindep_filter 3 [0.25; 0.5; 3]%float 1 declared)
   ≤ n_cond (lindep_filter 3 [0.25; 0.5; 3]%float 0.3 declared))%Z.
Proof.
  apply (raising_threshold_drops_more 3 [0.25; 0.5; 3]%float 0.3%float 1%float declared).
  reflexivity.
Defined.

(** On an ascending spectrum the cut separates the values: everything
    before [n_illcond] fails the test [x >= threshold] and everything from
    [n_illcond] on passes it. *)
Theorem cut_separates_ascending_spectrum
    (N : nat) (eps : list float) (threshold : float) (st : locals) (j : nat) (x : float) :
  ascending eps → eps !! j = Some x →
  ((Z.of_nat j < n_illcond (lindep_filter N eps threshold st))%Z → ge x threshold = false) ∧
  ((n_illcond (lindep_filter N eps threshold st) ≤ Z.of_nat j)%Z → ge x threshold = true).
Proof.
  intros Hasc Hx.
  destruct (lindep_filter_fields N eps threshold st) as (_ & -> & _).
  set (k := find_if (λ x, ge x threshold) eps).
  split; intros Hj.
  - apply (find_if_before (λ x, ge x threshold) eps j x); [fold k; lia|done].
  - assert (k < length eps) as Hk by (apply lookup_lt_Some in Hx; lia).
    destruct (lookup_lt_is_Some_2 eps k Hk) as [y Hy].
    pose proof (find_if_lookup (λ x, ge x threshold) eps y Hy) as Hge.
    destruct (decide (k = j)) as [->|Hne]; [congruence|].
    unfold ge in *. apply double_leb_trans with y; [done|].
    apply (ascending_le eps k j); [done|lia|done|done].
Qed.

Lemma cut_separates_ascending_spectrum_witness :
  ((Z.of_nat 2 < n_illcond (lindep_filter 3 [0.25; 0.5; 3]%float 0.5 declared))%Z →
   ge 3 0.5 = false) ∧
  ((n_illcond (lindep_filter 3 [0.25; 0.5; 3]%float 0.5 declared) ≤ Z.of_nat 2)%Z →
   ge 3 0.5 = true).
Proof.
  apply (cut_separates_ascending_spectrum 3 [0.25; 0.5; 3]%float 0.5%float declared 2 3%float).
  - apply ascendingb_ascending. reflexivity.
  - reflexivity.
Defined.

Lemma forallb_dropped_in_range (eps : list float) n :
  n ≤ length eps →
  forallb line_in_range
    ((λ i, Dropped_eigenvalue (Z.of_nat i + 1) (eps !! i)) <$> seq 0 n) = true.
Proof.
  intros Hn. apply forallb_forall. intros l Hl.
  apply list_elem_of_In, list_elem_of_fmap in Hl as (i & -> & Hi).
  apply elem_of_seq in Hi.
  destruct (lookup_lt_is_Some_2 eps i ltac:(lia)) as [x ->]. done.
Qed.

(** The filter stays inside [eps] exactly when some eigenvalue passes the
    test: otherwise [eps.back()] or [*first_above_thresh] is read outside
    the vector. *)
Theorem reads_in_range_iff_some_eigenvalue_passes
    (N : nat) (eps : list float) (threshold : float) (st : locals) :
  reads_in_range (lindep_filter N eps threshold st) = true ↔
  ∃ x, x ∈ eps ∧ ge x threshold = true.
Proof.
  unfold reads_in_range, lindep_filter. cbn [result_condition_number cout].
  set (k := find_if (λ x, ge x threshold) eps).
  split.
  - intros H. apply andb_true_iff in H as [H _]. apply bool_decide_eq_true in H.
    destruct (eps !! k) as [y|] eqn:Hy.
    + exists y. split; [by apply list_elem_of_lookup_2 in Hy|].
      by apply (find_if_lookup (λ x, ge x threshold) eps).
    + destruct H as [? H]. by destruct (list.last eps).
  - intros (x & Hin & Hge).
    destruct (find_if_found (λ x, ge x threshold) eps x Hin Hge) as (y & Hy & _).
    fold k in Hy. rewrite Hy.
    assert (is_Some (list.last eps)) as [back ->].
    { rewrite last_lookup. apply lookup_lt_is_Some. apply lookup_lt_Some in Hy. lia. }
    apply andb_true_iff. split; [by apply bool_decide_eq_true|].
    destruct (0 <? Z.of_nat k)%Z; [|done]. cbn [forallb app line_in_range andb].
    apply forallb_dropped_in_range. apply lookup_lt_Some in Hy. lia.
Qed.

(** A threshold that is not a number passes no eigenvalue: everything is
    dropped. *)
Theorem nan_threshold_drops_everything
    (N : nat) (eps : list float) (threshold : float) (st : locals) :
  length eps = N → (threshold <=? threshold)%float = false →
  n_illcond (lindep_filter N eps threshold st) = Z.of_nat N ∧
  n_cond (lindep_filter N eps threshold st) = 0%Z ∧
  reads_in_range (lindep_filter N eps threshold st) = false.
Proof.
  intros Hlen Hnan.
  assert (∀ x, ge x threshold = false) as Hno.
  { intros x. unfold ge. destruct (threshold <=? x)%float eqn:E; [|done].
    apply double_leb_refl_l in E. congruence. }
  assert (find_if (λ x, ge x threshold) eps = length eps) as Hit
    by (apply find_if_none; auto).
  destruct (lindep_filter_fields N eps threshold st) as (_ & Hill & Hcond & _).
  rewrite Hill, Hcond, Hit, Hlen.
  split; [done|]. split; [lia|].
  unfold reads_in_range, lindep_filter. cbn [result_condition_number].
  rewrite Hit, (proj2 (lookup_ge_None eps (length eps))) by done.
  by destruct (list.last eps).
Qed.

Lemma nan_threshold_drops_everything_witness :
  n_illcond (lindep_filter 2 [0.5; 1]%float nan declared) = Z.of_nat 2 ∧
  n_cond (lindep_filter 2 [0.5; 1]%float nan declared) = 0%Z ∧
  reads_in_range (lindep_filter 2 [0.5; 1]%float nan declared) = false.
Proof.
  apply (nan_threshold_drops_everything 2 [0.5; 1]%float nan declared); reflexivity.
Defined.

(** Nothing is dropped, and nothing is printed, exactly when the first
    eigenvalue passes the test. *)
Theorem nothing_dropped_iff_first_passes
    (N : nat) (eps : list float) (threshold : float) (st : locals) (front : float) :
  eps !! 0 = Some front →
  (n_illcond (lindep_filter N eps threshold st) = 0%Z ↔ ge front threshold = true) ∧
  (cout (lindep_filter N eps threshold st) = [] ↔ ge front threshold = true) ∧
  (ge front threshold = true →
   n_cond (lindep_filter N eps threshold st) = Z.of_nat N ∧
   ∃ back, list.last eps = Some back ∧
     result_condition_number (lindep_filter N eps threshold st)
       = Some (back / front)%float).
Proof.
  intros Hfront. destruct eps as [|a eps]; [done|]. injection Hfront as ->.
  unfold lindep_filter. cbn [n_illcond cout n_cond result_condition_number find_if].
  destruct (ge front threshold) eqn:Hge.
  - split; [done|]. split; [done|]. intros _. split; [simpl; lia|].
    assert (is_Some (list.last (front :: eps))) as [back Hb].
    { rewrite last_lookup. apply lookup_lt_is_Some. simpl. lia. }
    exists back. by rewrite Hb.
  - split; [split; [lia|done]|]. split; [|done].
    replace (0 <? Z.of_nat (S (find_if (λ x, ge x threshold) eps)))%Z with true
      by (symmetry; apply Z.ltb_lt; lia).
    split; done.
Qed.

Lemma nothing_dropped_iff_first_passes_witness :
  (n_illcond (lindep_filter 3 [0.25; 0.5; 3]%float 0.125 declared) = 0%Z
   ↔ ge 0.25 0.125 = true) ∧
  (cout (lindep_filter 3 [0.25; 0.5; 3]%float 0.125 declared) = []
   ↔ ge 0.25 0.125 = true) ∧
  (ge 0.25 0.125 = true →
   n_cond (lindep_filter 3 [0.25; 0.5; 3]%float 0.125 declared) = Z.of_nat 3 ∧
   ∃ back, list.last [0.25; 0.5; 3]%float = Some back ∧
     result_condition_number (lindep_filter 3 [0.25; 0.5; 3]%float 0.125 declared)
       = Some (back / 0.25)%float).
Proof.
  apply (nothing_dropped_iff_first_passes 3 [0.25; 0.5; 3]%float 0.125%float declared
           0.25%float).
  reflexivity.
Defined.

Lemma find_if_drop {A} (p : A → bool) (v : list A) :
  find_if p (drop (find_if p v) v) = 0.
Proof.
  induction v as [|a v IH]; [done|]. simpl.
  destruct (p a) eqn:Ea; [|done]. simpl. by rewrite Ea.
Qed.

(** Filtering the retained eigenvalues again, with the same threshold,
    drops none of them: the cut is stable. *)
Theorem refiltering_retained_spectrum_drops_nothing
    (N : nat) (eps : list float) (threshold : float) (st st' : locals) :
  length eps = N →
  let r := lindep_filter N eps threshold st in
  let retained := drop (Z.to_nat (n_illcond r)) eps in
  let r' := lindep_filter (Z.to_nat (n_cond r)) retained threshold st' in
  length retained = Z.to_nat (n_cond r) ∧
  n_illcond r' = 0%Z ∧ n_cond r' = n_cond r ∧ cout r' = [].
Proof.
  intros Hlen r retained r'.
  destruct (lindep_filter_fields N eps threshold st) as (_ & Hill & Hcond & _).
  fold r in Hill, Hcond.
  pose proof (find_if_le (λ x, ge x threshold) eps) as Hle.
  assert (retained = drop (find_if (λ x, ge x threshold) eps) eps) as Hret.
  { unfold retained. by rewrite Hill, Nat2Z.id. }
  assert (n_illcond r' = 0%Z) as Hz.
  { unfold r', lindep_filter. cbn [n_illcond]. by rewrite Hret, find_if_drop. }
  split; [rewrite Hret, length_drop, Hcond; lia|].
  split; [done|]. split.
  - destruct (lindep_filter_fields (Z.to_nat (n_cond r)) retained threshold st')
      as (_ & Hill' & Hcond' & _).
    fold r' in Hill', Hcond'. rewrite Hcond', <- Hill', Hz, Hcond. lia.
  - unfold r', lindep_filter. cbn [cout]. by rewrite Hret, find_if_drop.
Qed.

Lemma refiltering_retained_spectrum_drops_nothing_witness :
  let eps := [0.25; 0.5; 3]%float in
  let r := lindep_filter 3 eps 0.5 declared in
  let retained := drop (Z.to_nat (n_illcond r)) eps in
  let r' := lindep_filter (Z.to_nat (n_cond r)) retained 0.5 declared in
  length retained = Z.to_nat (n_cond r) ∧
  n_illcond r' = 0%Z ∧ n_cond r' = n_cond r ∧ cout r' = [].
Proof.
  apply (refiltering_retained_spectrum_drops_nothing 3 [0.25; 0.5; 3]%float 0.5%float
           declared declared).
  reflexivity.
Defined.

(** ** The entry points on every rank *)

Section Entry_point_properties.

Variable syevd : nat → list float → list float * list float.

Lemma n_illcond_after_broadcast_range world_size world_rank N S1 threshold :
  (0 ≤ n_illcond (after_broadcast syevd world_size world_rank N S1 threshold)
     ≤ Z.of_nat N)%Z.
Proof.
  destruct (after_broadcast_root syevd 1 N S1 threshold) as (_ & Hroot & _ & Hle).
  assert (n_illcond (before_broadcast syevd 0 N S1 threshold)
          = n_illcond (after_broadcast syevd 1 0 N S1 threshold)) as E by done.
  assert (n_illcond (after_broadcast syevd world_size world_rank N S1 threshold)
          = if decide (1 < world_size)
            then n_illcond (before_broadcast syevd 0 N S1 threshold)
            else n_illcond (before_broadcast syevd world_rank N S1 threshold)) as -> by done.
  destruct (decide (1 < world_size)).
  - rewrite E, Hroot. lia.
  - destruct (decide (world_rank = 0)) as [->|Hne].
    + rewrite E, Hroot. lia.
    + rewrite before_broadcast_other by done. simpl. lia.
Qed.

(** The two counts always split [N]: neither is negative, so the casts
    [size_t(n_cond)] and [(size_t) sys_data.nbf] never wrap. *)
Theorem counts_split_N
    (world_size world_rank N : nat) (S1 : list float) (threshold : float) :
  let g := gensqrtinv syevd world_size world_rank N S1 threshold in
  let a := gensqrtinv_atscf syevd world_size world_rank N S1 threshold in
  (0 ≤ n_lindep g ≤ Z.of_nat N)%Z ∧ (0 ≤ nbf g ≤ Z.of_nat N)%Z ∧
  (n_lindep g + nbf g = Z.of_nat N)%Z ∧
  (returned g).1.1 = nbf g ∧ (returned_atscf a).1.1.2 = nbf g ∧
  cols (X_alpha g) = Z.to_nat (nbf g) ∧ rows (X_alpha g) = N ∧
  length (data (X_alpha g)) = N * Z.to_nat (nbf g).
Proof.
  intros g a.
  pose proof (n_illcond_after_broadcast_range world_size world_rank N S1 threshold) as Hr.
  pose proof (n_cond_after_broadcast syevd world_size world_rank N S1 threshold) as Hc.
  unfold g, a, gensqrtinv, gensqrtinv_atscf.
  destruct (decompose syevd 0 N S1) as [V eps].
  cbn -[after_broadcast tabulate]. rewrite length_tabulate.
  repeat split; try done; lia.
Qed.

(** Only [n_illcond] is broadcast.  A rank other than 0 returns
    [result_condition_number = 0.0] and prints nothing, whatever rank 0
    found. *)
Theorem other_ranks_return_no_diagnostics
    (world_size world_rank N : nat) (S1 : list float) (threshold : float) :
  world_rank ≠ 0 →
  let g := gensqrtinv syevd world_size world_rank N S1 threshold in
  let a := gensqrtinv_atscf syevd world_size world_rank N S1 threshold in
  (returned g).2 = Some 0%float ∧ printed g = [] ∧
  (returned_atscf a).2 = Some 0%float ∧ printed_atscf a = [].
Proof.
  intros Hne g a. unfold g, a, gensqrtinv, gensqrtinv_atscf.
  destruct (decompose syevd 0 N S1) as [V eps].
  cbn -[before_broadcast tabulate]. by rewrite before_broadcast_other.
Qed.

(** Every rank of the group ends with the same transform. *)
Theorem transform_agrees_on_every_rank
    (world_size N : nat) (S1 : list float) (threshold : float) (r1 r2 : nat) :
  r1 < world_size → r2 < world_size →
  X_alpha (gensqrtinv syevd world_size r1 N S1 threshold)
  = X_alpha (gensqrtinv syevd world_size r2 N S1 threshold) ∧
  (returned_atscf (gensqrtinv_atscf syevd world_size r1 N S1 threshold)).1.1.1
  = (returned_atscf (gensqrtinv_atscf syevd world_size r2 N S1 threshold)).1.1.1.
Proof.
  intros H1 H2.
  pose proof (n_illcond_after_broadcast syevd world_size r1 N S1 threshold H1) as E1.
  pose proof (n_illcond_after_broadcast syevd world_size r2 N S1 threshold H2) as E2.
  unfold gensqrtinv, gensqrtinv_atscf.
  destruct (decompose syevd 0 N S1) as [V eps]. cbn -[after_broadcast tabulate].
  by rewrite !n_cond_after_broadcast, E1, E2.
Qed.

End Entry_point_properties.

Lemma other_ranks_return_no_diagnostics_witness :
  let g := gensqrtinv (syevd_returning example_V example_eps) 2 1 4 example_V 1e-10 in
  let a := gensqrtinv_atscf (syevd_returning example_V example_eps) 2 1 4 example_V 1e-10 in
  (returned g).2 = Some 0%float ∧ printed g = [] ∧
  (returned_atscf a).2 = Some 0%float ∧ printed_atscf a = [].
Proof.
  apply (other_ranks_return_no_diagnostics (syevd_returning example_V example_eps)
           2 1 4 example_V 1e-10%float).
  lia.
Defined.

Lemma transform_agrees_on_every_rank_witness :
  X_alpha (gensqrtinv (syevd_returning example_V example_eps) 3 0 4 example_V 1e-10)
  = X_alpha (gensqrtinv (syevd_returning example_V example_eps) 3 2 4 example_V 1e-10) ∧
  (returned_atscf
     (gensqrtinv_atscf (syevd_returning example_V example_eps) 3 0 4 example_V 1e-10)).1.1.1
  = (returned_atscf
       (gensqrtinv_atscf (syevd_returning example_V example_eps) 3 2 4 example_V 1e-10)).1.1.1.
Proof.
  apply (transform_agrees_on_every_rank (syevd_returning example_V example_eps)
           3 4 example_V 1e-10%float 0 2); lia.
Defined.

(** ** What the caller can do with the gathered vectors *)

Lemma concat_segment (vs : list (list Z)) :
  ∀ i v, vs !! i = Some v →
    take (length v) (drop (sum_list (take i (length <$> vs))) (concat vs)) = v.
Proof.
  induction vs as [|a vs IH]; intros i v Hv; [done|].
  destruct i as [|i]; simpl in Hv.
  - injection Hv as ->. simpl. apply take_app_length.
  - cbn [fmap list_fmap take sum_list sum_list_with concat].
    change (id (length a)) with (length a).
    rewrite drop_app_add. by apply IH.
Qed.

(** On rank 0 the displacement and the reported length of a rank cut that
    rank's contribution out of each gathered vector. *)
Theorem rank_segment_recovered (g : group) (i : nat) (t : task_vectors) :
  fits (length ∘ s1vec <$> g) → fits (length ∘ s2vec <$> g) →
  fits (length ∘ ntask_vec <$> g) →
  g !! i = Some t →
  ∃ r d1 d2 d3,
    gather_phase g 0 = Ok r ∧
    disps_s1 r !! i = Some d1 ∧ disps_s2 r !! i = Some d2 ∧ disps_nt r !! i = Some d3 ∧
    take (length (s1vec t)) (drop (Z.to_nat d1) (s1_all r)) = s1vec t ∧
    take (length (s2vec t)) (drop (Z.to_nat d2) (s2_all r)) = s2vec t ∧
    take (length (ntask_vec t)) (drop (Z.to_nat d3) (ntasks_all r)) = ntask_vec t.
Proof.
  intros H1 H2 H3 Ht.
  assert (g ≠ []) as Hne by (by destruct g).
  assert (i < length g) as Hi by (by apply lookup_lt_Some in Ht).
  pose proof (gather_phase_on_root g Hne H1 H2 H3) as Hphase.
  destruct (gather_one s1vec g Hne H1) as (_ & D1 & _).
  destruct (gather_one s2vec g Hne H2) as (_ & D2 & _).
  destruct (gather_one ntask_vec g Hne H3) as (_ & D3 & _).
  assert (∀ proj : task_vectors → list Z,
            take (length (proj t))
              (drop (Z.to_nat (exclusive_prefix_sum (length ∘ proj <$> g) i))
                    (concat (proj <$> g))) = proj t) as Hseg.
  { intros proj. unfold exclusive_prefix_sum. rewrite Nat2Z.id.
    rewrite (list_fmap_compose proj length).
    apply concat_segment. by apply list_lookup_fmap_Some_2. }
  eexists _, _, _, _. split; [exact Hphase|].
  cbn [disps_s1 disps_s2 disps_nt s1_all s2_all ntasks_all].
  split; [by apply D1|]. split; [by apply D2|]. split; [by apply D3|].
  split; [apply Hseg|]. split; apply Hseg.
Qed.

Lemma rank_segment_recovered_witness :
  let t0 := {| s1vec := [10; 11]; s2vec := [20; 21]; ntask_vec := [1; 2] |}%Z in
  let t1 := {| s1vec := []; s2vec := []; ntask_vec := [] |} in
  let t2 := {| s1vec := [12; 13; 14]; s2vec := [22; 23; 24]; ntask_vec := [3; 4; 5] |}%Z in
  let g := [t0; t1; t2] in
  ∃ r d1 d2 d3,
    gather_phase g 0 = Ok r ∧
    disps_s1 r !! 2 = Some d1 ∧ disps_s2 r !! 2 = Some d2 ∧ disps_nt r !! 2 = Some d3 ∧
    take (length (s1vec t2)) (drop (Z.to_nat d1) (s1_all r)) = s1vec t2 ∧
    take (length (s2vec t2)) (drop (Z.to_nat d2) (s2_all r)) = s2vec t2 ∧
    take (length (ntask_vec t2)) (drop (Z.to_nat d3) (ntasks_all r)) = ntask_vec t2.
Proof.
  intros t0 t1 t2 g.
  apply (rank_segment_recovered g 2 t2).
  - unfold fits, Int.INT_MAX. simpl. lia.
  - unfold fits, Int.INT_MAX. simpl. lia.
  - unfold fits, Int.INT_MAX. simpl. lia.
  - reflexivity.
Defined.

Lemma zip_concat {T A B} (f : T → list A) (h : T → list B) (g : list T) :
  (∀ t, t ∈ g → length (f t) = length (h t)) →
  zip (concat (f <$> g)) (concat (h <$> g)) = concat ((λ t, zip (f t) (h t)) <$> g).
Proof.
  induction g as [|t g IH]; intros H; [done|].
  rewrite !fmap_cons. simpl concat. rewrite zip_with_app.
  - f_equal. apply IH. intros t' Ht'. apply H. by apply list_elem_of_further.
  - apply H. apply list_elem_of_here.
Qed.

(** When every rank passes three vectors of one length (a list of tasks,
    column by column), the call succeeds on rank 0 and the gathered columns
    still line up: the [k]-th entries of the three results are the three
    fields of one task, tasks ordered by rank and then by local position. *)
Theorem aligned_tasks_stay_aligned (g : group) :
  g ≠ [] →
  (∀ t, t ∈ g → length (s1vec t) = length (s2vec t) ∧
                length (s1vec t) = length (ntask_vec t)) →
  fits (length ∘ s1vec <$> g) →
  ∃ a b c,
    gather_task_vectors g 0 = Ok (a, b, c) ∧
    length a = length b ∧ length a = length c ∧
    zip a (zip b c) =
      concat ((λ t, zip (s1vec t) (zip (s2vec t) (ntask_vec t))) <$> g).
Proof.
  intros Hne Heq H1.
  assert (length ∘ s2vec <$> g = length ∘ s1vec <$> g) as E2.
  { apply list_fmap_ext. intros i t Ht. simpl. symmetry.
    apply Heq. by apply list_elem_of_lookup_2 in Ht. }
  assert (length ∘ ntask_vec <$> g = length ∘ s1vec <$> g) as E3.
  { apply list_fmap_ext. intros i t Ht. simpl. symmetry.
    apply Heq. by apply list_elem_of_lookup_2 in Ht. }
  assert (fits (length ∘ s2vec <$> g)) as H2 by (by rewrite E2).
  assert (fits (length ∘ ntask_vec <$> g)) as H3 by (by rewrite E3).
  pose proof (gather_phase_on_root g Hne H1 H2 H3) as Hphase.
  exists (concat (s1vec <$> g)), (concat (s2vec <$> g)), (concat (ntask_vec <$> g)).
  assert (length (concat (s1vec <$> g)) = length (concat (s2vec <$> g))) as L12.
  { by rewrite !length_concat_proj, E2. }
  assert (length (concat (s1vec <$> g)) = length (concat (ntask_vec <$> g))) as L13.
  { by rewrite !length_concat_proj, E3. }
  split.
  { unfold gather_task_vectors. rewrite Hphase, bind_Ok.
    cbn [s1_all s2_all ntasks_all].
    by rewrite !bool_decide_eq_true_2 by done. }
  split; [done|]. split; [done|].
  rewrite (zip_concat s2vec ntask_vec g).
  2:{ intros t Ht. destruct (Heq t Ht). congruence. }
  rewrite (zip_concat s1vec (λ t, zip (s2vec t) (ntask_vec t)) g); [done|].
  intros t Ht. destruct (Heq t Ht) as [E E'].
  rewrite length_zip_with_l_eq; [done|congruence].
Qed.

Lemma aligned_tasks_stay_aligned_witness :
  let g := [{| s1vec := [10; 11]; s2vec := [20; 21]; ntask_vec := [1; 2] |};
            {| s1vec := []; s2vec := []; ntask_vec := [] |};
            {| s1vec := [12]; s2vec := [22]; ntask_vec := [3] |}]%Z in
  ∃ a b c,
    gather_task_vectors g 0 = Ok (a, b, c) ∧
    length a = length b ∧ length a = length c ∧
    zip a (zip b c) =
      concat ((λ t, zip (s1vec t) (zip (s2vec t) (ntask_vec t))) <$> g).
Proof.
  intros g. apply (aligned_tasks_stay_aligned g).
  - discriminate.
  - intros t Ht. apply list_elem_of_In in Ht. simpl in Ht.
    destruct Ht as [<-|[<-|[<-|[]]]]; split; reflexivity.
  - unfold fits, Int.INT_MAX. simpl. lia.
Defined.

(** ** Sizes beyond [int] *)

Lemma wrap_le z : (0 ≤ z)%Z → (Int.wrap z ≤ z)%Z.
Proof.
  intros Hz. unfold Int.wrap.
  pose proof (Z.mod_le (z + 2147483648) 4294967296 ltac:(lia) ltac:(lia)). lia.
Qed.

Lemma gatherv_root_single (v : list Z) (c : Z) :
  (0 ≤ c ≤ Z.of_nat (length v))%Z →
  gatherv_root (replicate (Z.to_nat c) 0%Z) [take (Z.to_nat c) v] [c] [0%Z]
  = Ok (take (Z.to_nat c) v).
Proof.
  intros Hc. cbn [gatherv_root]. rewrite decide_True.
  2:{ rewrite length_replicate. lia. }
  unfold place. cbn [take Z.to_nat]. rewrite take_take, Nat.min_id.
  rewrite length_take, Nat.min_l by lia.
  rewrite drop_ge by (rewrite length_replicate; lia).
  by rewrite app_nil_r.
Qed.

(** With one rank, each gathered vector is the first [(int) size] elements
    of the local one.  That is the whole vector when the size fits [int];
    a size that wraps to a non-negative [int] gathers a shorter prefix, with
    no failure: a vector of [2^32 + 2] elements is gathered as its first
    two. *)
Theorem single_rank_gathers_int_size_prefix :
  (∀ t : task_vectors,
     let c1 := Int.of_size (length (s1vec t)) in
     let c2 := Int.of_size (length (s2vec t)) in
     let c3 := Int.of_size (length (ntask_vec t)) in
     (0 ≤ c1)%Z → (0 ≤ c2)%Z → (0 ≤ c3)%Z →
     gather_phase [t] 0 =
     Ok {| disps_s1 := [0%Z]; disps_s2 := [0%Z]; disps_nt := [0%Z];
           s1_all := take (Z.to_nat c1) (s1vec t);
           s2_all := take (Z.to_nat c2) (s2vec t);
           ntasks_all := take (Z.to_nat c3) (ntask_vec t) |}) ∧
  (let v := replicate (Z.to_nat 4294967298) 7%Z in
   gather_phase [{| s1vec := v; s2vec := v; ntask_vec := v |}] 0 =
   Ok {| disps_s1 := [0%Z]; disps_s2 := [0%Z]; disps_nt := [0%Z];
         s1_all := [7; 7]%Z; s2_all := [7; 7]%Z; ntasks_all := [7; 7]%Z |}).
Proof.
  assert (∀ t : task_vectors,
     let c1 := Int.of_size (length (s1vec t)) in
     let c2 := Int.of_size (length (s2vec t)) in
     let c3 := Int.of_size (length (ntask_vec t)) in
     (0 ≤ c1)%Z → (0 ≤ c2)%Z → (0 ≤ c3)%Z →
     gather_phase [t] 0 =
     Ok {| disps_s1 := [0%Z]; disps_s2 := [0%Z]; disps_nt := [0%Z];
           s1_all := take (Z.to_nat c1) (s1vec t);
           s2_all := take (Z.to_nat c2) (s2vec t);
           ntasks_all := take (Z.to_nat c3) (ntask_vec t) |}) as Hgen.
  { intros t c1 c2 c3 H1 H2 H3.
    assert (∀ v : list Z, (0 ≤ Int.of_size (length v))%Z →
              resize (Int.add 0 (Int.of_size (length v)))
              = Ok (replicate (Z.to_nat (Int.of_size (length v))) 0%Z) ∧
              (Int.of_size (length v) ≤ Z.of_nat (length v))%Z) as Hres.
    { intros v Hv. split.
      - unfold Int.add. rewrite Z.add_0_l.
        rewrite (wrap_small (Int.of_size (length v))) by apply wrap_range.
        unfold resize. by rewrite decide_False by lia.
      - apply wrap_le. lia. }
    destruct (Hres (s1vec t) H1) as [R1 L1].
    destruct (Hres (s2vec t) H2) as [R2 L2].
    destruct (Hres (ntask_vec t) H3) as [R3 L3].
    unfold gather_phase. rewrite !pg_gather_root, displacements_split.
    cbv beta iota zeta. rewrite decide_True by done. unfold allocate. cbv zeta.
    change (displacements_of (length [t]) ?c) with [0%Z].
    change (Z.of_nat (length [t]) - 1)%Z with 0%Z.
    change (index [0%Z] 0) with (Ok 0%Z : outcome Z).
    change (index (Int.of_size ∘ length ∘ s1vec <$> [t]) 0)
      with (Ok (Int.of_size (length (s1vec t))) : outcome Z).
    change (index (Int.of_size ∘ length ∘ s2vec <$> [t]) 0)
      with (Ok (Int.of_size (length (s2vec t))) : outcome Z).
    change (index (Int.of_size ∘ length ∘ ntask_vec <$> [t]) 0)
      with (Ok (Int.of_size (length (ntask_vec t))) : outcome Z).
    rewrite !bind_Ok, R1, bind_Ok, !bind_Ok, R2, bind_Ok, !bind_Ok, R3, bind_Ok.
    unfold mret, outcome_ret. rewrite bind_Ok, !pg_gatherv_root.
    change (message ∘ s1vec <$> [t]) with [take (Z.to_nat c1) (s1vec t)].
    change (message ∘ s2vec <$> [t]) with [take (Z.to_nat c2) (s2vec t)].
    change (message ∘ ntask_vec <$> [t]) with [take (Z.to_nat c3) (ntask_vec t)].
    change (Int.of_size ∘ length ∘ s1vec <$> [t]) with [c1].
    change (Int.of_size ∘ length ∘ s2vec <$> [t]) with [c2].
    change (Int.of_size ∘ length ∘ ntask_vec <$> [t]) with [c3].
    fold c1 c2 c3.
    rewrite !gatherv_root_single by (unfold c1, c2, c3; lia).
    by rewrite !bind_Ok. }
  split; [exact Hgen|]. intros v.
  assert (Int.of_size (length v) = 2%Z) as Hc.
  { unfold v. rewrite length_replicate. unfold Int.of_size.
    rewrite Z2Nat.id by lia. by vm_compute. }
  assert (take 2 v = [7; 7]%Z) as Ht.
  { unfold v. rewrite take_replicate.
    replace (2 `min` Z.to_nat 4294967298) with 2 by lia. done. }
  rewrite Hgen; cbn [s1vec s2vec ntask_vec]; rewrite ?Hc; [|lia..].
  change (Z.to_nat 2) with 2. by rewrite Ht.
Qed.

Lemma single_rank_gathers_int_size_prefix_witness :
  gather_phase [{| s1vec := [7; 8]; s2vec := [9]; ntask_vec := [] |}]%Z 0 =
  Ok {| disps_s1 := [0%Z]; disps_s2 := [0%Z]; disps_nt := [0%Z];
        s1_all := [7; 8]%Z; s2_all := [9]%Z; ntasks_all := [] |}.
Proof.
  apply (proj1 single_rank_gathers_int_size_prefix
           {| s1vec := [7; 8]; s2vec := [9]; ntask_vec := [] |}%Z); by vm_compute.
Defined.

(** ** [sort_indexes] *)

Lemma StronglySorted_lookup {A} (R : relation A) (l : list A) :
  StronglySorted R l →
  ∀ i j x y, i < j → l !! i = Some x → l !! j = Some y → R x y.
Proof.
  induction 1 as [|a l Hs IH Hall]; intros i j x y Hij Hx Hy; [done|].
  destruct j as [|j]; [lia|]. simpl in Hy.
  destruct i as [|i]; simpl in Hx.
  - injection Hx as ->. rewrite Forall_forall in Hall. apply Hall.
    by apply list_elem_of_lookup_2 in Hy.
  - apply (IH i j); [lia|done|done].
Qed.

(** While the [int] counter of [iota] stays within [INT_MAX], the last
    increment included, the range is filled with [k, k + 1, ...]. *)
Lemma iota_small (n k : nat) :
  (Z.of_nat (k + n) ≤ Int.INT_MAX)%Z → iota n (Z.of_nat k) = seq k n.
Proof.
  revert k. induction n as [|n IH]; intros k Hk; [done|].
  simpl. f_equal.
  - unfold to_size_t. rewrite Z.mod_small by (unfold Int.INT_MAX in Hk; lia).
    apply Nat2Z.id.
  - rewrite add_small by lia.
    replace (Z.of_nat k + 1)%Z with (Z.of_nat (S k)) by lia.
    apply IH. lia.
Qed.

Lemma iota_length (v : list float) :
  (Z.of_nat (length v) ≤ Int.INT_MAX)%Z → iota (length v) 0%Z = seq 0 (length v).
Proof. intros Hv. by apply (iota_small (length v) 0). Qed.

Section Sort_indexes_facts.

Variable std_sort : (nat → nat → bool) → list nat → list nat.

Lemma sort_indexes_perm (v : list float) (reverse : bool) :
  std_sort_post (by_value v) (iota (length v) 0%Z)
    (std_sort (by_value v) (iota (length v) 0%Z)) →
  sort_indexes std_sort v reverse ≡ₚ iota (length v) 0%Z.
Proof.
  intros [Hperm _]. unfold sort_indexes. destruct reverse; [|done].
  by rewrite reverse_Permutation.
Qed.

Lemma sort_indexes_lookup_lt (v : list float) (reverse : bool) i a :
  (Z.of_nat (length v) ≤ Int.INT_MAX)%Z →
  std_sort_post (by_value v) (iota (length v) 0%Z)
    (std_sort (by_value v) (iota (length v) 0%Z)) →
  sort_indexes std_sort v reverse !! i = Some a → a < length v.
Proof.
  intros Hv Hpost Ha. apply list_elem_of_lookup_2 in Ha.
  rewrite (sort_indexes_perm v reverse Hpost), (iota_length v Hv), elem_of_seq in Ha. lia.
Qed.

Lemma sorted_part_lookup (v : list float) (reverse : bool) i a :
  sort_indexes std_sort v reverse !! i = Some a →
  let out := std_sort (by_value v) (iota (length v) 0%Z) in
  i < length out ∧
  out !! (if reverse then length out - S i else i) = Some a.
Proof.
  intros H out. unfold sort_indexes in H. fold out in H. destruct reverse.
  - apply reverse_lookup_Some in H as [H Hi]. done.
  - split; [by apply lookup_lt_Some in H|done].
Qed.

(** What the comparator says about two entries of the result: the later
    one is never before the earlier one, the other way round when
    [reverse] is set. *)
Lemma sort_indexes_compare (v : list float) (reverse : bool) (i j a b : nat) :
  std_sort_post (by_value v) (iota (length v) 0%Z)
    (std_sort (by_value v) (iota (length v) 0%Z)) →
  i < j →
  sort_indexes std_sort v reverse !! i = Some a →
  sort_indexes std_sort v reverse !! j = Some b →
  (if reverse then by_value v a b else by_value v b a) = false.
Proof.
  intros [_ Hsorted] Hij Ha Hb.
  apply sorted_part_lookup in Ha as [Hi Ha]. apply sorted_part_lookup in Hb as [Hj Hb].
  set (out := std_sort (by_value v) (iota (length v) 0%Z)) in *.
  pose proof (StronglySorted_lookup _ _ Hsorted) as Hlk.
  destruct reverse.
  - apply (Hlk (length out - S j) (length out - S i) b a); [lia|done|done].
  - apply (Hlk i j a b); [lia|done|done].
Qed.

(** For a vector of at most [INT_MAX] elements, where the [int] counter of
    [iota] does not overflow, the result lists every position of [v] once:
    reading [v] through it stays in range. *)
Theorem sort_indexes_is_permutation (v : list float) (reverse : bool) :
  (Z.of_nat (length v) ≤ Int.INT_MAX)%Z →
  std_sort_post (by_value v) (iota (length v) 0%Z)
    (std_sort (by_value v) (iota (length v) 0%Z)) →
  let idx := sort_indexes std_sort v reverse in
  idx ≡ₚ seq 0 (length v) ∧ length idx = length v ∧ NoDup idx ∧
  (∀ k, k ∈ idx ↔ k < length v) ∧
  (∀ i a, idx !! i = Some a → is_Some (v !! a)).
Proof.
  intros Hv Hpost idx.
  pose proof (sort_indexes_perm v reverse Hpost) as Hp. fold idx in Hp.
  rewrite (iota_length v Hv) in Hp.
  split; [done|]. split; [by rewrite Hp, length_seq|].
  split; [rewrite Hp; apply NoDup_seq|].
  split.
  - intros k. rewrite Hp, elem_of_seq. lia.
  - intros i a Ha. apply lookup_lt_is_Some.
    by apply (sort_indexes_lookup_lt v reverse i a).
Qed.

(** For at most [INT_MAX] values that are numbers, reading [v] through the
    result gives them in ascending order, or in descending order when
    [reverse] is set. *)
Theorem sort_indexes_orders_values
    (v : list float) (reverse : bool) (i j a b : nat) :
  (Z.of_nat (length v) ≤ Int.INT_MAX)%Z →
  std_sort_post (by_value v) (iota (length v) 0%Z)
    (std_sort (by_value v) (iota (length v) 0%Z)) →
  (∀ x, x ∈ v → (x <=? x)%float = true) →
  let idx := sort_indexes std_sort v reverse in
  i < j → idx !! i = Some a → idx !! j = Some b →
  ∃ x y, v !! a = Some x ∧ v !! b = Some y ∧
         if reverse then (y <=? x)%float = true else (x <=? y)%float = true.
Proof.
  intros Hv Hpost Hnum idx Hij Ha Hb.
  destruct (lookup_lt_is_Some_2 v a (sort_indexes_lookup_lt v reverse i a Hv Hpost Ha))
    as [x Hx].
  destruct (lookup_lt_is_Some_2 v b (sort_indexes_lookup_lt v reverse j b Hv Hpost Hb))
    as [y Hy].
  exists x, y. split; [done|]. split; [done|].
  assert ((x <=? x)%float = true) as Hxx by (apply Hnum; by apply list_elem_of_lookup_2 in Hx).
  assert ((y <=? y)%float = true) as Hyy by (apply Hnum; by apply list_elem_of_lookup_2 in Hy).
  pose proof (sort_indexes_compare v reverse i j a b Hpost Hij Ha Hb) as Hc.
  unfold by_value in Hc.
  rewrite (list_lookup_total_correct _ _ _ Hx), (list_lookup_total_correct _ _ _ Hy) in Hc.
  destruct reverse; by apply double_not_ltb_leb.
Qed.

(** For at most [INT_MAX] values that are numbers, the first index of the
    result points to a smallest value, or to a largest one when [reverse]
    is set. *)
Theorem sort_indexes_first_is_extremum
    (v : list float) (reverse : bool) (a k : nat) (x y : float) :
  (Z.of_nat (length v) ≤ Int.INT_MAX)%Z →
  std_sort_post (by_value v) (iota (length v) 0%Z)
    (std_sort (by_value v) (iota (length v) 0%Z)) →
  (∀ x, x ∈ v → (x <=? x)%float = true) →
  sort_indexes std_sort v reverse !! 0 = Some a →
  v !! a = Some x → v !! k = Some y →
  if reverse then (y <=? x)%float = true else (x <=? y)%float = true.
Proof.
  intros Hv Hpost Hnum Ha Hx Hy.
  assert ((x <=? x)%float = true) as Hxx by (apply Hnum; by apply list_elem_of_lookup_2 in Hx).
  assert ((y <=? y)%float = true) as Hyy by (apply Hnum; by apply list_elem_of_lookup_2 in Hy).
  assert (k ∈ sort_indexes std_sort v reverse) as Hk.
  { rewrite (sort_indexes_perm v reverse Hpost), (iota_length v Hv), elem_of_seq.
    apply lookup_lt_Some in Hy. lia. }
  apply list_elem_of_lookup in Hk as [j Hj].
  destruct j as [|j].
  - assert (a = k) as -> by congruence.
    assert (x = y) as -> by congruence.
    by destruct reverse.
  - pose proof (sort_indexes_compare v reverse 0 (S j) a k Hpost ltac:(lia) Ha Hj) as Hc.
    unfold by_value in Hc.
    rewrite (list_lookup_total_correct _ _ _ Hx), (list_lookup_total_correct _ _ _ Hy) in Hc.
    destruct reverse; by apply double_not_ltb_leb.
Qed.

End Sort_indexes_facts.

(** For a vector of at most [INT_MAX] elements: when the comparator
    separates any two positions (no two values compare equal), the
    postcondition of [std::sort] leaves one result only, and every
    conforming sort gives the same indices. *)
Theorem sort_indexes_unique_without_ties
    (sort1 sort2 : (nat → nat → bool) → list nat → list nat)
    (v : list float) (reverse : bool) :
  (Z.of_nat (length v) ≤ Int.INT_MAX)%Z →
  std_sort_post (by_value v) (iota (length v) 0%Z)
    (sort1 (by_value v) (iota (length v) 0%Z)) →
  std_sort_post (by_value v) (iota (length v) 0%Z)
    (sort2 (by_value v) (iota (length v) 0%Z)) →
  (∀ i j, i < length v → j < length v → i ≠ j →
          by_value v i j = true ∨ by_value v j i = true) →
  sort_indexes sort1 v reverse = sort_indexes sort2 v reverse.
Proof.
  intros Hv [P1 S1] [P2 S2] Hsep.
  assert (sort1 (by_value v) (iota (length v) 0%Z)
          = sort2 (by_value v) (iota (length v) 0%Z)) as E.
  { apply (StronglySorted_unique_strong (λ x y, by_value v y x = false)); try done.
    - intros x1 x2 H1 H2 R12 R21.
      destruct (decide (x1 = x2)) as [|Hne]; [done|]. exfalso.
      rewrite P1, (iota_length v Hv) in H1. rewrite P2, (iota_length v Hv) in H2.
      apply elem_of_seq in H1, H2.
      destruct (Hsep x1 x2 ltac:(lia) ltac:(lia) Hne); congruence.
    - by rewrite P1, P2. }
  unfold sort_indexes. by rewrite E.
Qed.

(** [merge_sorter] conforms on every vector of numbers, so the postcondition
    assumed above can be met. *)
Lemma merge_sorter_conforms (v : list float) (l : list nat) :
  (∀ x, x ∈ v → (x <=? x)%float = true) →
  std_sort_post (by_value v) l (merge_sorter (by_value v) l).
Proof.
  intros Hnum.
  assert (∀ k, (v !!! k <=? v !!! k)%float = true) as Hk.
  { intros k. rewrite list_lookup_total_alt.
    destruct (v !! k) as [x|] eqn:E; [|done].
    apply Hnum. by apply list_elem_of_lookup_2 in E. }
  split; [apply merge_sort_Permutation|].
  apply StronglySorted_merge_sort.
  - intros a b c Hab Hbc. unfold by_value in *.
    assert ((v !!! a <=? v !!! c)%float = true) as Hac.
    { apply double_leb_trans with (v !!! b); by apply double_not_ltb_leb. }
    destruct (v !!! c <? v !!! a)%float eqn:E; [|done].
    apply double_ltb_not_leb in E. congruence.
  - intros a b. unfold by_value.
    destruct (v !!! b <? v !!! a)%float eqn:E; [|by left].
    right. apply double_ltb_leb in E.
    destruct (v !!! a <? v !!! b)%float eqn:E'; [|done].
    apply double_ltb_not_leb in E'. congruence.
Qed.

Lemma sort_indexes_is_permutation_witness :
  let idx := sort_indexes merge_sorter [3; 1; 2; 1]%float true in
  idx ≡ₚ seq 0 4 ∧ length idx = 4 ∧ NoDup idx ∧ (∀ k, k ∈ idx ↔ k < 4) ∧
  (∀ i a, idx !! i = Some a → is_Some ([3; 1; 2; 1]%float !! a)).
Proof.
  apply (sort_indexes_is_permutation merge_sorter [3; 1; 2; 1]%float true).
  { unfold Int.INT_MAX. simpl. lia. }
  apply merge_sorter_conforms.
  intros x Hx. apply list_elem_of_In in Hx. simpl in Hx.
  destruct Hx as [<-|[<-|[<-|[<-|[]]]]]; reflexivity.
Defined.

Lemma sort_indexes_orders_values_witness :
  ∃ x y, [3; 1; 2; 1]%float !! 0 = Some x ∧ [3; 1; 2; 1]%float !! 2 = Some y ∧
         (y <=? x)%float = true.
Proof.
  apply (sort_indexes_orders_values merge_sorter [3; 1; 2; 1]%float true 0 1 0 2).
  - unfold Int.INT_MAX. simpl. lia.
  - apply merge_sorter_conforms.
    intros x Hx. apply list_elem_of_In in Hx. simpl in Hx.
    destruct Hx as [<-|[<-|[<-|[<-|[]]]]]; reflexivity.
  - intros x Hx. apply list_elem_of_In in Hx. simpl in Hx.
    destruct Hx as [<-|[<-|[<-|[<-|[]]]]]; reflexivity.
  - lia.
  - reflexivity.
  - reflexivity.
Defined.

Lemma sort_indexes_first_is_extremum_witness : (1 <=? 2)%float = true.
Proof.
  apply (sort_indexes_first_is_extremum merge_sorter [3; 1; 2; 1]%float false
           1 2 1%float 2%float).
  - unfold Int.INT_MAX. simpl. lia.
  - apply merge_sorter_conforms.
    intros x Hx. apply list_elem_of_In in Hx. simpl in Hx.
    destruct Hx as [<-|[<-|[<-|[<-|[]]]]]; reflexivity.
  - intros x Hx. apply list_elem_of_In in Hx. simpl in Hx.
    destruct Hx as [<-|[<-|[<-|[<-|[]]]]]; reflexivity.
  - reflexivity.
  - reflexivity.
  - reflexivity.
Defined.

Lemma sort_indexes_unique_without_ties_witness :
  sort_indexes merge_sorter [3; 1; 2]%float true
  = sort_indexes (λ comp l, merge_sorter comp (reverse l)) [3; 1; 2]%float true.
Proof.
  assert (∀ x, x ∈ [3; 1; 2]%float → (x <=? x)%float = true) as Hnum.
  { intros x Hx. apply list_elem_of_In in Hx. simpl in Hx.
    destruct Hx as [<-|[<-|[<-|[]]]]; reflexivity. }
  apply (sort_indexes_unique_without_ties merge_sorter
           (λ comp l, merge_sorter comp (reverse l)) [3; 1; 2]%float true).
  - unfold Int.INT_MAX. simpl. lia.
  - by apply merge_sorter_conforms.
  - destruct (merge_sorter_conforms [3; 1; 2]%float (reverse (iota 3 0%Z)) Hnum) as [P S].
    split; [|exact S]. etrans; [exact P|]. apply reverse_Permutation.
  - intros [|[|[|i]]] [|[|[|j]]] Hi Hj Hne; simpl in Hi, Hj; try lia; try done;
      (by left) || (by right).
Defined.
